(** * server.js: the authoritative treasure-hunt game server

    A shallow embedding of the game logic of [server.js] (round
    lifecycle, simulation tick, treasure spawner, leaderboard and the
    three socket handlers), followed by the properties of the server
    that the specification states.

    Conventions of the embedding.
    - The module-level variables of [server.js] are the fields of the
      record [server]; every function of the source is a computation in
      the state monad over that record.
    - The JavaScript object [players] is an association list in
      property order.  Socket ids are twenty-character tokens, never
      array indices, so the property order of [for ... in],
      [Object.keys] and [Object.values] is insertion order.
    - Coordinates are exact rationals; [Math.sqrt(a) < 1.5] is read on
      the reals, as [a < 1.5 * 1.5].
    - The values that [Math.random()], [Date.now()] and
      [Object.keys(io.sockets.sockets)] return during one handler
      invocation are inputs of that invocation (record [env]).
      What the last one returns depends on the socket.io that is
      installed: up to version 2 [io.sockets.sockets] is an object
      keyed by socket id and the call lists the ids of the open
      sockets, which is what the filter in [endGame] is written for;
      from version 3 on it is a [Map] and the call returns the empty
      array.  Properties that depend on the list say which case they
      are about.
    - Node's timer table is part of the state: [setInterval] and
      [setTimeout] allocate a fresh handle, [clearInterval] removes one,
      and only a handle that is still in the table can fire.
    - The file holds two revisions of the server.  They differ in the
      options given to socket.io and in the argument of the
      [gameOver] message: the later one sends name and score, the
      earlier one the name.  The later revision is embedded; the
      message of the earlier one is [gameOver_message_v1]. *)

From Stdlib Require Import ZArith QArith Qround List String Bool Lia.
From Stdlib Require Import Permutation Sorted DecimalString Lqa.
From ExtLib Require Import Structures.Monad Structures.MonadState.
From ExtLib Require Import Data.Monads.StateMonad.
Import ListNotations.
Import MonadNotation.
Local Open Scope monad_scope.
Local Open Scope Z_scope.

(** ** Data model *)

(** A player record, [{ id, name, x, y, z, score }]. *)
Module Player.
Record t := mk {
  id : string;
  name : string;
  x : Q;
  y : Q;
  z : Q;
  score : Z
}.

Definition with_score (v : Z) (p : t) : t :=
  mk (id p) (name p) (x p) (y p) (z p) v.

Definition with_position (vx vy vz : Q) (p : t) : t :=
  mk (id p) (name p) vx vy vz (score p).
End Player.

(** A treasure, [{ id, x, y, z }].  The template string
    [`treasure-${Date.now()}-${Math.random()}`] is kept as its two
    interpolated values. *)
Module Treasure.
Record t := mk {
  id : Z * Q;
  x : Q;
  y : Q;
  z : Q
}.
End Treasure.

(** The [position] argument of a [move] event. *)
Module Position.
Record t := mk { x : Q; y : Q; z : Q }.
End Position.

(** One row of the leaderboard, [{ name, score }]. *)
Module Entry.
Record t := mk { name : string; score : Z }.
End Entry.

(** The values drawn from the environment during one invocation. *)
Record env := mkEnv {
  Date_now : Z;                       (* Date.now() in spawnTreasure *)
  random_name : Q;                    (* Math.random() of the fallback name *)
  random_px : Q;                      (* Math.random() of the player's x *)
  random_pz : Q;                      (* Math.random() of the player's z *)
  random_tid : Q;                     (* Math.random() of the treasure id *)
  random_tx : Q;                      (* Math.random() of the treasure's x *)
  random_tz : Q;                      (* Math.random() of the treasure's z *)
  connectedSocketIds : list string    (* Object.keys(io.sockets.sockets) *)
}.

(** What a scheduled callback does when it fires. *)
Inductive callback :=
| cb_gameLoop          (* setInterval(gameLoop, GAME_TICK_RATE) *)
| cb_spawnTreasure     (* setInterval(spawnTreasure, TREASURE_SPAWN_RATE) *)
| cb_countdown         (* setInterval(() => { gameTimer--; ... }, 1000) *)
| cb_restart.          (* setTimeout(() => { ... startGame() ... }, 10000) *)

(** An entry of the timer table.  [born] is a history variable: the
    number of rounds started when the timer was created.  No handler
    reads it. *)
Record timer := mkTimer {
  action : callback;
  repeating : bool;
  born : nat
}.

(** Messages sent to clients. *)
Inductive payload :=
| gameState (ps : list (string * Player.t)) (ts : list Treasure.t)
            (timeLeft : Z) (leaderboard : list Entry.t)
| gameOver (winnerName : string) (winnerScore : Z)
| gameJoined (sid : string) (ps : list (string * Player.t))
             (ts : list Treasure.t) (timeLeft : Z)
             (leaderboard : list Entry.t).

Inductive emission :=
| io_emit (m : payload)                     (* to every session *)
| socket_emit (sid : string) (m : payload). (* to one session *)

(** The server state: the seven module-level variables of the source,
    then the timer table of the runtime, the log of emitted messages,
    and the history variable [rounds] counting the calls of
    [startGame]. *)
Record server := mkServer {
  players : list (string * Player.t);
  treasures : list Treasure.t;
  gameInProgress : bool;
  gameTimer : Z;
  countdownInterval : option nat;
  gameLoopInterval : option nat;
  treasureSpawnInterval : option nat;
  timers : list (nat * timer);
  nextHandle : nat;
  emitted : list emission;
  rounds : nat
}.

Definition set_players v (s : server) : server :=
  mkServer v (treasures s) (gameInProgress s) (gameTimer s)
    (countdownInterval s) (gameLoopInterval s) (treasureSpawnInterval s)
    (timers s) (nextHandle s) (emitted s) (rounds s).

Definition set_treasures v (s : server) : server :=
  mkServer (players s) v (gameInProgress s) (gameTimer s)
    (countdownInterval s) (gameLoopInterval s) (treasureSpawnInterval s)
    (timers s) (nextHandle s) (emitted s) (rounds s).

Definition set_gameInProgress v (s : server) : server :=
  mkServer (players s) (treasures s) v (gameTimer s)
    (countdownInterval s) (gameLoopInterval s) (treasureSpawnInterval s)
    (timers s) (nextHandle s) (emitted s) (rounds s).

Definition set_gameTimer v (s : server) : server :=
  mkServer (players s) (treasures s) (gameInProgress s) v
    (countdownInterval s) (gameLoopInterval s) (treasureSpawnInterval s)
    (timers s) (nextHandle s) (emitted s) (rounds s).

Definition set_countdownInterval v (s : server) : server :=
  mkServer (players s) (treasures s) (gameInProgress s) (gameTimer s)
    v (gameLoopInterval s) (treasureSpawnInterval s)
    (timers s) (nextHandle s) (emitted s) (rounds s).

Definition set_gameLoopInterval v (s : server) : server :=
  mkServer (players s) (treasures s) (gameInProgress s) (gameTimer s)
    (countdownInterval s) v (treasureSpawnInterval s)
    (timers s) (nextHandle s) (emitted s) (rounds s).

Definition set_treasureSpawnInterval v (s : server) : server :=
  mkServer (players s) (treasures s) (gameInProgress s) (gameTimer s)
    (countdownInterval s) (gameLoopInterval s) v
    (timers s) (nextHandle s) (emitted s) (rounds s).

Definition set_timers v (s : server) : server :=
  mkServer (players s) (treasures s) (gameInProgress s) (gameTimer s)
    (countdownInterval s) (gameLoopInterval s) (treasureSpawnInterval s)
    v (nextHandle s) (emitted s) (rounds s).

Definition set_nextHandle v (s : server) : server :=
  mkServer (players s) (treasures s) (gameInProgress s) (gameTimer s)
    (countdownInterval s) (gameLoopInterval s) (treasureSpawnInterval s)
    (timers s) v (emitted s) (rounds s).

Definition set_emitted v (s : server) : server :=
  mkServer (players s) (treasures s) (gameInProgress s) (gameTimer s)
    (countdownInterval s) (gameLoopInterval s) (treasureSpawnInterval s)
    (timers s) (nextHandle s) v (rounds s).

Definition set_rounds v (s : server) : server :=
  mkServer (players s) (treasures s) (gameInProgress s) (gameTimer s)
    (countdownInterval s) (gameLoopInterval s) (treasureSpawnInterval s)
    (timers s) (nextHandle s) (emitted s) v.

(** The state at module load: [players = {}], [treasures = []],
    [gameInProgress = false], [gameTimer = 60], the three handles
    undefined. *)
Definition initial : server :=
  mkServer [] [] false 60 None None None [] 0%nat [] 0%nat.

Definition GAME_AREA_WIDTH : Q := 50.
Definition GAME_AREA_HEIGHT : Q := 50.
Definition COLLISION_THRESHOLD : Q := 3 # 2.
Definition MAX_TREASURES : nat := 20.

(** ** JavaScript objects and arrays *)

Module Obj.
Section Obj.
Context {A : Type}.

(** [o[k]] *)
Fixpoint get (k : string) (o : list (string * A)) : option A :=
  match o with
  | [] => None
  | (k', v) :: o' => if String.eqb k k' then Some v else get k o'
  end.

(** [o[k] = v]: an existing property keeps its place, a new one
    goes last. *)
Fixpoint set (k : string) (v : A) (o : list (string * A))
  : list (string * A) :=
  match o with
  | [] => [(k, v)]
  | (k', v') :: o' =>
      if String.eqb k k' then (k, v) :: o' else (k', v') :: set k v o'
  end.

(** [delete o[k]] *)
Fixpoint delete (k : string) (o : list (string * A))
  : list (string * A) :=
  match o with
  | [] => []
  | (k', v') :: o' =>
      if String.eqb k k' then o' else (k', v') :: delete k o'
  end.

Definition keys (o : list (string * A)) : list string := map fst o.
Definition values (o : list (string * A)) : list A := map snd o.

(** [for (const k in o) o[k] = f(o[k])] *)
Definition update_all (f : A -> A) (o : list (string * A))
  : list (string * A) :=
  map (fun kv => (fst kv, f (snd kv))) o.
End Obj.
End Obj.

(** [a.includes(k)] on an array of strings. *)
Definition includes (a : list string) (k : string) : bool :=
  existsb (String.eqb k) a.

(** [a.splice(index, 1)] *)
Fixpoint splice1 {A : Type} (index : nat) (a : list A) : list A :=
  match index, a with
  | _, [] => []
  | O, _ :: a' => a'
  | S i, v :: a' => v :: splice1 i a'
  end.

(** [a.sort(cmp)].  The language requires the sort to be stable; for a
    comparator that is a consistent ordering the result is then the
    one stable arrangement, which insertion from the right computes:
    an element moves behind a later one only when [cmp] is positive. *)
Fixpoint sort_insert {A : Type} (cmp : A -> A -> Z) (v : A) (a : list A)
  : list A :=
  match a with
  | [] => [v]
  | w :: a' => if 0 <? cmp v w then w :: sort_insert cmp v a' else v :: a
  end.

Fixpoint sort {A : Type} (cmp : A -> A -> Z) (a : list A) : list A :=
  match a with
  | [] => []
  | v :: a' => sort_insert cmp v (sort cmp a')
  end.

(** [a.slice(0, n)] *)
Definition slice0 {A : Type} (n : nat) (a : list A) : list A := firstn n a.

(** ** The runtime: timers and emission *)

Definition M := state server.

Fixpoint timer_lookup (h : nat) (tb : list (nat * timer)) : option timer :=
  match tb with
  | [] => None
  | (h', t) :: tb' => if Nat.eqb h h' then Some t else timer_lookup h tb'
  end.

Definition timer_remove (h : nat) (tb : list (nat * timer))
  : list (nat * timer) :=
  filter (fun ht => negb (Nat.eqb h (fst ht))) tb.

Definition schedule (cb : callback) (rep : bool) : M nat :=
  s <- get ;;
  let h := nextHandle s in
  put (set_nextHandle (S h)
         (set_timers ((h, mkTimer cb rep (rounds s)) :: timers s) s)) ;;
  ret h.

Definition setInterval (cb : callback) : M nat := schedule cb true.
Definition setTimeout (cb : callback) : M nat := schedule cb false.

Definition assign (f : server -> server) : M unit :=
  s <- get ;; put (f s).

(** [clearInterval(handle)]; an undefined handle is ignored. *)
Definition timer_clear (handle : option nat) (tb : list (nat * timer))
  : list (nat * timer) :=
  match handle with
  | None => tb
  | Some h => timer_remove h tb
  end.

Definition clearInterval (handle : option nat) : M unit :=
  assign (fun s => set_timers (timer_clear handle (timers s)) s).

Definition emit (m : emission) : M unit :=
  assign (fun s => set_emitted (emitted s ++ [m]) s).

(** ** Game logic *)

Definition Qlt_bool (a b : Q) : bool := negb (Qle_bool b a).

(** [Math.sqrt(Math.pow(player.x - treasure.x, 2) +
              Math.pow(player.z - treasure.z, 2)) < 1.5] *)
Definition collides (player : Player.t) (treasure : Treasure.t) : bool :=
  Qlt_bool
    (Qpower (Player.x player - Treasure.x treasure) 2 +
     Qpower (Player.z player - Treasure.z treasure) 2)
    (COLLISION_THRESHOLD * COLLISION_THRESHOLD).

(** [spawnTreasure()], and the object literal it pushes. *)
Definition new_treasure (e : env) : Treasure.t :=
  Treasure.mk (Date_now e, random_tid e)
    ((random_tx e - (1 # 2)) * GAME_AREA_WIDTH)%Q
    (1 # 2)
    ((random_tz e - (1 # 2)) * GAME_AREA_HEIGHT)%Q.

Definition spawnTreasure (e : env) : M unit :=
  s <- get ;;
  if (MAX_TREASURES <=? List.length (treasures s))%nat then ret tt
  else
    let treasure := new_treasure e in
    put (set_treasures (treasures s ++ [treasure]) s).

(** [startGame()] *)
Definition startGame (e : env) : M unit :=
  assign (fun s => set_rounds (S (rounds s)) s) ;;
  assign (set_gameInProgress true) ;;
  assign (set_gameTimer 60) ;;
  assign (set_treasures []) ;;
  assign (fun s =>
    set_players (Obj.update_all (Player.with_score 0) (players s)) s) ;;
  h <- setInterval cb_gameLoop ;;
  assign (set_gameLoopInterval (Some h)) ;;
  h <- setInterval cb_spawnTreasure ;;
  assign (set_treasureSpawnInterval (Some h)) ;;
  spawnTreasure e ;;
  h <- setInterval cb_countdown ;;
  assign (set_countdownInterval (Some h)).

(** The winner loop of [endGame]: the pair is [(winner, highScore)],
    started at [(null, -1)]. *)
Definition winner_step (acc : option Player.t * Z) (p : Player.t)
  : option Player.t * Z :=
  if snd acc <? Player.score p then (Some p, Player.score p) else acc.

Definition determineWinner (ps : list (string * Player.t))
  : option Player.t * Z :=
  fold_left winner_step (Obj.values ps) (None, -1).

(** The argument of [io.emit('gameOver', ...)] in the later revision
    of the file, and in the earlier one, which sends the name only. *)
Definition gameOver_message (winner : option Player.t) : payload :=
  match winner with
  | Some w => gameOver (Player.name w) (Player.score w)
  | None => gameOver "No one"%string 0
  end.

Definition gameOver_message_v1 (winner : option Player.t) : string :=
  match winner with
  | Some w => Player.name w
  | None => "No one"%string
  end.

(** [endGame()] *)
Definition endGame : M unit :=
  assign (set_gameInProgress false) ;;
  h <- gets gameLoopInterval ;; clearInterval h ;;
  h <- gets treasureSpawnInterval ;; clearInterval h ;;
  h <- gets countdownInterval ;; clearInterval h ;;
  ps <- gets players ;;
  emit (io_emit (gameOver_message (fst (determineWinner ps)))) ;;
  _ <- setTimeout cb_restart ;;
  ret tt.

(** The callback that [endGame] hands to [setTimeout]. *)
Definition restart (e : env) : M unit :=
  assign (fun s =>
    set_players
      (filter (fun kv => includes (connectedSocketIds e) (fst kv))
         (players s)) s) ;;
  ps <- gets players ;;
  if (0 <? List.length (Obj.keys ps))%nat then startGame e else ret tt.

(** The callback that [startGame] hands to its third [setInterval]. *)
Definition countdown : M unit :=
  assign (fun s => set_gameTimer (gameTimer s - 1) s) ;;
  t <- gets gameTimer ;;
  if t <=? 0 then endGame else ret tt.

(** [getLeaderboard()]: the comparator [(a, b) => b.score - a.score],
    the projection [p => ({ name: p.name, score: p.score })] and the
    chain [Object.values(players).sort(...).slice(0, 5).map(...)]. *)
Definition compare_score (a b : Player.t) : Z :=
  Player.score b - Player.score a.

Definition entry_of (p : Player.t) : Entry.t :=
  Entry.mk (Player.name p) (Player.score p).

Definition leaderboard_of (ps : list (string * Player.t)) : list Entry.t :=
  map entry_of (slice0 5 (sort compare_score (Obj.values ps))).

Definition getLeaderboard : M (list Entry.t) :=
  ps <- gets players ;;
  ret (leaderboard_of ps).

(** [treasures.forEach((treasure, index) => { ... })] for one player.
    [forEach] reads the length once ([todo] iterations are left) and
    visits index [index] only if it is still in the array; the
    callback splices the array it is iterating. *)
Fixpoint forEach_treasure (todo index : nat) (player : Player.t)
    (ts : list Treasure.t) : Player.t * list Treasure.t :=
  match todo with
  | O => (player, ts)
  | S todo' =>
      match nth_error ts index with
      | None => forEach_treasure todo' (S index) player ts
      | Some treasure =>
          if collides player treasure then
            forEach_treasure todo' (S index)
              (Player.with_score (Player.score player + 1) player)
              (splice1 index ts)
          else forEach_treasure todo' (S index) player ts
      end
  end.

(** [for (const playerId in players) { ... }] of [gameLoop]. *)
Fixpoint collisions (ps : list (string * Player.t)) (ts : list Treasure.t)
  : list (string * Player.t) * list Treasure.t :=
  match ps with
  | [] => ([], ts)
  | (playerId, player) :: ps' =>
      let (player', ts1) := forEach_treasure (List.length ts) 0 player ts in
      let (ps'', ts2) := collisions ps' ts1 in
      ((playerId, player') :: ps'', ts2)
  end.

(** [gameLoop()] *)
Definition gameLoop : M unit :=
  assign (fun s =>
    let (ps, ts) := collisions (players s) (treasures s) in
    set_treasures ts (set_players ps s)) ;;
  s <- get ;;
  leaderboard <- getLeaderboard ;;
  emit (io_emit
    (gameState (players s) (treasures s) (gameTimer s) leaderboard)).

(** ** Network handling *)

(** [playerName || 'Player ' + Math.floor(Math.random() * 1000)] *)
Definition fallback_name (playerName : string) (e : env) : string :=
  if String.eqb playerName EmptyString then
    String.append "Player "
      (NilZero.string_of_int (Z.to_int (Qfloor (random_name e * 1000))))
  else playerName.

(** The record that [joinGame] stores in [players[socket.id]]. *)
Definition new_player (sid playerName : string) (e : env) : Player.t :=
  Player.mk sid (fallback_name playerName e)
    ((random_px e - (1 # 2)) * 10)%Q
    (1 # 2)
    ((random_pz e - (1 # 2)) * 10)%Q
    0.

(** [socket.on('joinGame', (playerName) => { ... })] *)
Definition joinGame (sid playerName : string) (e : env) : M unit :=
  assign (fun s =>
    set_players (Obj.set sid (new_player sid playerName e) (players s)) s) ;;
  s <- get ;;
  (if negb (gameInProgress s) && (0 <? List.length (Obj.keys (players s)))%nat
   then startGame e else ret tt) ;;
  s <- get ;;
  leaderboard <- getLeaderboard ;;
  emit (socket_emit sid
    (gameJoined sid (players s) (treasures s) (gameTimer s) leaderboard)).

(** [socket.on('move', (position) => { ... })] *)
Definition move (sid : string) (position : Position.t) : M unit :=
  s <- get ;;
  match Obj.get sid (players s) with
  | Some player =>
      put (set_players
             (Obj.set sid
                (Player.with_position (Position.x position)
                   (Position.y position) (Position.z position) player)
                (players s)) s)
  | None => ret tt
  end.

(** [socket.on('disconnect', () => { ... })] *)
Definition disconnect (sid : string) : M unit :=
  assign (fun s => set_players (Obj.delete sid (players s)) s) ;;
  ps <- gets players ;;
  if (List.length (Obj.keys ps) =? 0)%nat then
    assign (set_gameInProgress false) ;;
    h <- gets gameLoopInterval ;; clearInterval h ;;
    h <- gets treasureSpawnInterval ;; clearInterval h ;;
    h <- gets countdownInterval ;; clearInterval h ;;
    assign (set_treasures [])
  else ret tt.

(** ** The event loop *)

Definition run_callback (cb : callback) (e : env) : M unit :=
  match cb with
  | cb_gameLoop => gameLoop
  | cb_spawnTreasure => spawnTreasure e
  | cb_countdown => countdown
  | cb_restart => restart e
  end.

(** A timer fires only while its handle is in the table; a timeout
    leaves the table when it fires. *)
Definition fire (h : nat) (e : env) : M unit :=
  s <- get ;;
  match timer_lookup h (timers s) with
  | None => ret tt
  | Some t =>
      (if repeating t then ret tt
       else put (set_timers (timer_remove h (timers s)) s)) ;;
      run_callback (action t) e
  end.

Inductive event :=
| on_joinGame (sid playerName : string)
| on_move (sid : string) (position : Position.t)
| on_disconnect (sid : string)
| on_timer (h : nat).

Definition handle (ev : event) (e : env) : M unit :=
  match ev with
  | on_joinGame sid playerName => joinGame sid playerName e
  | on_move sid position => move sid position
  | on_disconnect sid => disconnect sid
  | on_timer h => fire h e
  end.

Definition exec {A : Type} (c : M A) (s : server) : server :=
  snd (runState c s).

Definition step (ev : event) (e : env) (s : server) : server :=
  exec (handle ev e) s.

Fixpoint run (trace : list (event * env)) (s : server) : server :=
  match trace with
  | [] => s
  | (ev, e) :: trace' => run trace' (step ev e s)
  end.

(** ** Vocabulary of the properties *)

(** The values of the three handle variables. *)
Definition handles (s : server) : list (option nat) :=
  [gameLoopInterval s; treasureSpawnInterval s; countdownInterval s].

(** The timer table after the three [clearInterval] calls of
    [endGame] and of the disconnect handler. *)
Definition clear_handles (s : server) : list (nat * timer) :=
  timer_clear (countdownInterval s)
    (timer_clear (treasureSpawnInterval s)
       (timer_clear (gameLoopInterval s) (timers s))).

Definition nonneg_scores (ps : list (string * Player.t)) : Prop :=
  Forall (fun kv => 0 <= Player.score (snd kv)) ps.

Definition zero_scores (ps : list (string * Player.t)) : Prop :=
  Forall (fun kv => Player.score (snd kv) = 0) ps.

(** The sum of all scores. *)
Definition total_score (ps : list (string * Player.t)) : Z :=
  fold_right (fun kv acc => Player.score (snd kv) + acc) 0 ps.

(** [a] may stand before [b] on the leaderboard. *)
Definition descending (a b : Player.t) : Prop :=
  Player.score b <= Player.score a.

Definition has_score (v : Z) (p : Player.t) : bool := Player.score p =? v.

(** The callbacks given to [setTimeout]; the others go to
    [setInterval]. *)
Definition is_timeout (cb : callback) : bool :=
  match cb with cb_restart => true | _ => false end.

(** What holds of every state the server can reach. *)
Record invariant (s : server) : Prop := {
  inv_scores : nonneg_scores (players s);
  inv_keys : NoDup (Obj.keys (players s));
  inv_cap : (List.length (treasures s) <= MAX_TREASURES)%nat;
  inv_timers : forall h t,
    timer_lookup h (timers s) = Some t -> (h < nextHandle s)%nat;
  inv_handles : forall h, In (Some h) (handles s) -> (h < nextHandle s)%nat;
  inv_timeout : forall h t,
    timer_lookup h (timers s) = Some t ->
    repeating t = negb (is_timeout (action t));
  inv_held : forall h t,
    In (Some h) (handles s) ->
    timer_lookup h (timers s) = Some t ->
    is_timeout (action t) = false
}.

(** [h] was allocated and is not in the timer table any more. *)
Definition cancelled (h : nat) (s : server) : Prop :=
  (h < nextHandle s)%nat /\ timer_lookup h (timers s) = None.

(** A value of [Math.random()]: at least 0 and below 1. *)
Definition unit_interval (r : Q) : Prop := (0 <= r)%Q /\ (r < 1)%Q.

(** Every draw of the invocation is a value of [Math.random()]. *)
Definition draws_in_range (e : env) : Prop :=
  unit_interval (random_name e) /\
  unit_interval (random_px e) /\ unit_interval (random_pz e) /\
  unit_interval (random_tx e) /\ unit_interval (random_tz e).

(** The treasure lies in the game area, at the fixed height. *)
Definition in_arena (t : Treasure.t) : Prop :=
  (- (GAME_AREA_WIDTH / 2) <= Treasure.x t)%Q /\
  (Treasure.x t < GAME_AREA_WIDTH / 2)%Q /\
  (- (GAME_AREA_HEIGHT / 2) <= Treasure.z t)%Q /\
  (Treasure.z t < GAME_AREA_HEIGHT / 2)%Q /\
  Treasure.y t = 1 # 2.

(** Some player is within the collision radius of the treasure. *)
Definition in_reach (ps : list (string * Player.t)) (t : Treasure.t) : bool :=
  existsb (fun kv => collides (snd kv) t) ps.

(** The handle is scheduled as an interval running [cb]. *)
Definition scheduled (handle : option nat) (cb : callback) (s : server)
  : Prop :=
  exists h, handle = Some h /\
            timer_lookup h (timers s) = Some (mkTimer cb true (rounds s)).

(** A restart timeout is waiting in the timer table. *)
Definition restart_pending (s : server) : Prop :=
  exists h t, timer_lookup h (timers s) = Some t /\ action t = cb_restart.

(** [gameState] and [gameOver] go to every session, [gameJoined] to
    the socket whose id it carries. *)
Definition well_addressed (m : emission) : Prop :=
  match m with
  | io_emit (gameState _ _ _ _) => True
  | io_emit (gameOver _ _) => True
  | socket_emit sid (gameJoined sid' _ _ _ _) => sid = sid'
  | _ => False
  end.

(** The record is filed under its own id and has a name. *)
Definition well_formed_entry (kv : string * Player.t) : Prop :=
  Player.id (snd kv) = fst kv /\ Player.name (snd kv) <> EmptyString.

(** [n] consecutive ticks, with no other event in between. *)
Fixpoint ticks (n : nat) (s : server) : server :=
  match n with
  | O => s
  | S n' => ticks n' (exec gameLoop s)
  end.

(** A timer that is scheduled and that no handle variable holds. *)
Definition waiting (h : nat) (t : timer) (s : server) : Prop :=
  timer_lookup h (timers s) = Some t /\
  (h < nextHandle s)%nat /\
  ~ In (Some h) (handles s).

(** [Object.keys(io.sockets.sockets)] returns the empty array, as it
    does from socket.io 3 on. *)
Definition no_ids_listed (e : env) : Prop := connectedSocketIds e = [].

(** Every interval in the timer table is held in a handle variable
    of a round in progress. *)
Definition only_held_intervals (s : server) : Prop :=
  forall h t,
    timer_lookup h (timers s) = Some t ->
    is_timeout (action t) = false ->
    gameInProgress s = true /\ In (Some h) (handles s).

(** What holds of the round in every state the server can reach. *)
Record round_invariant (s : server) : Prop := {
  ri_live :
    gameInProgress s = true ->
    scheduled (gameLoopInterval s) cb_gameLoop s /\
    scheduled (treasureSpawnInterval s) cb_spawnTreasure s /\
    scheduled (countdownInterval s) cb_countdown s;
  ri_time_max : gameTimer s <= 60;
  ri_time_min : gameInProgress s = true -> 1 <= gameTimer s;
  ri_served :
    players s <> [] -> gameInProgress s = true \/ restart_pending s;
  ri_entries : Forall well_formed_entry (players s);
  ri_log : Forall well_addressed (emitted s)
}.

(** ** Scenarios

    Concrete runs of the server, used to exhibit behaviours. *)

(** An invocation in which every [Math.random()] returns [r_player]
    for a player coordinate and [r_treasure] for a treasure
    coordinate, and the sockets [connected] are open. *)
Definition env_of (r_player r_treasure : Q) (connected : list string) : env :=
  mkEnv 0 (1 # 2) r_player r_player (1 # 2) r_treasure r_treasure connected.

(** The player spawns at (0, 0), the treasure at (0, 0). *)
Definition env_centre : env := env_of (1 # 2) (1 # 2) ["A"%string; "B"%string].

(** The player spawns at (0, 0), the treasure at (10, 10). *)
Definition env_apart : env := env_of (1 # 2) (7 # 10) ["A"%string; "B"%string].

(** The treasure spawns at (10.5, 10.5). *)
Definition env_beside : env :=
  env_of (1 # 2) (71 # 100) ["A"%string; "B"%string].

(** An invocation in which [Object.keys(io.sockets.sockets)] lists
    the open sockets A and B, as socket.io 1 and 2 do. *)
Definition env_ids_listed : env :=
  env_of (1 # 2) (7 # 10) ["A"%string; "B"%string].

(** The same invocation on socket.io 3 and later: no id is listed. *)
Definition env_no_ids : env := env_of (1 # 2) (7 # 10) [].

(** Ann joins an idle server and the countdown fires [n] times. *)
Definition ann_plays (n : nat) : list (event * env) :=
  (on_joinGame "A" "Ann", env_apart) :: repeat (on_timer 2, env_apart) n.

(** A [move] to (10, 10). *)
Definition at_treasure : Position.t := Position.mk 10 (1 # 2) 10.

(** Ann joins with the first treasure at (10, 10), a second treasure
    spawns at (10.5, 10.5), and Ann moves to (10, 10): both treasures
    are within the collision radius of Ann. *)
Definition ann_between_two : list (event * env) :=
  [ (on_joinGame "A" "Ann", env_apart);
    (on_timer 1, env_beside);
    (on_move "A" at_treasure, env_apart) ].

(** The same with Bob, who joined after Ann, at the same place. *)
Definition ann_and_bob_between_two : list (event * env) :=
  [ (on_joinGame "A" "Ann", env_apart);
    (on_joinGame "B" "Bob", env_apart);
    (on_timer 1, env_beside);
    (on_move "A" at_treasure, env_apart);
    (on_move "B" at_treasure, env_apart) ].

(** Ann joins at (0, 0) where the first treasure lies, and one tick
    gives her a point. *)
Definition ann_scores : list (event * env) :=
  [ (on_joinGame "A" "Ann", env_centre); (on_timer 0, env_centre) ].

(** The first round is played out, Bob joins during the grace
    period, which starts the second round; Ann collects a treasure
    and two seconds pass. *)
Definition second_round_running : list (event * env) :=
  ann_plays 60 ++
  [ (on_joinGame "B" "Bob", env_centre);
    (on_timer 4, env_centre);
    (on_timer 6, env_centre);
    (on_timer 6, env_centre) ].

(** A run on socket.io 1 or 2, where the restart callback is given
    the ids of the open sockets.  The first round is played out, Bob
    joins during the grace period (second round, timers 4, 5 and 6),
    the restart timeout of the first round fires with A and B listed
    (third round, timers 7, 8 and 9, whose handles replace 4, 5 and 6
    in the variables), the third round is played out, and Ann moves
    to the treasure.  On socket.io 3 and later the restart callback
    is given no id and this run does not occur: see
    [no_ids_no_stray_interval]. *)
Definition after_third_round : list (event * env) :=
  ann_plays 60 ++
  [ (on_joinGame "B" "Bob", env_apart); (on_timer 3, env_ids_listed) ] ++
  repeat (on_timer 9, env_apart) 60 ++
  [ (on_move "A" at_treasure, env_apart) ].

(** ** What each function does to the state

    Every function of the source is characterised as a function on
    [server]; the properties below are proved from these equations. *)

Ltac case_if :=
  match goal with
  | |- context [if ?b then _ else _] => destruct b eqn:?
  end.

Lemma exec_spawnTreasure e s :
  exec (spawnTreasure e) s =
  if (MAX_TREASURES <=? List.length (treasures s))%nat then s
  else set_treasures (treasures s ++ [new_treasure e]) s.
Proof.
  unfold exec, spawnTreasure. cbn -[Nat.leb]. case_if; reflexivity.
Qed.

Lemma exec_startGame e s :
  exec (startGame e) s =
  mkServer (Obj.update_all (Player.with_score 0) (players s))
    [new_treasure e] true 60
    (Some (2 + nextHandle s)%nat) (Some (nextHandle s))
    (Some (1 + nextHandle s)%nat)
    (((2 + nextHandle s)%nat, mkTimer cb_countdown true (S (rounds s))) ::
     ((1 + nextHandle s)%nat, mkTimer cb_spawnTreasure true (S (rounds s))) ::
     (nextHandle s, mkTimer cb_gameLoop true (S (rounds s))) :: timers s)
    (3 + nextHandle s)%nat (emitted s) (S (rounds s)).
Proof.
  destruct s. vm_compute. reflexivity.
Qed.

Lemma exec_endGame s :
  exec endGame s =
  mkServer (players s) (treasures s) false (gameTimer s)
    (countdownInterval s) (gameLoopInterval s) (treasureSpawnInterval s)
    ((nextHandle s, mkTimer cb_restart false (rounds s)) :: clear_handles s)
    (S (nextHandle s))
    (emitted s ++
       [io_emit (gameOver_message (fst (determineWinner (players s))))])
    (rounds s).
Proof. destruct s. reflexivity. Qed.

Lemma exec_countdown s :
  exec countdown s =
  if gameTimer s - 1 <=? 0
  then exec endGame (set_gameTimer (gameTimer s - 1) s)
  else set_gameTimer (gameTimer s - 1) s.
Proof.
  unfold exec, countdown. cbn -[Z.leb]. case_if; reflexivity.
Qed.

Lemma exec_restart e s :
  exec (restart e) s =
  let s1 :=
    set_players
      (filter (fun kv => includes (connectedSocketIds e) (fst kv))
         (players s)) s in
  if (0 <? List.length (Obj.keys (players s1)))%nat
  then exec (startGame e) s1 else s1.
Proof.
  unfold exec, restart. cbn -[startGame].
  case_if; reflexivity.
Qed.

Lemma exec_getLeaderboard s :
  runState getLeaderboard s = (leaderboard_of (players s), s).
Proof. reflexivity. Qed.

Lemma exec_gameLoop s :
  exec gameLoop s =
  let ps := fst (collisions (players s) (treasures s)) in
  let ts := snd (collisions (players s) (treasures s)) in
  mkServer ps ts (gameInProgress s) (gameTimer s)
    (countdownInterval s) (gameLoopInterval s) (treasureSpawnInterval s)
    (timers s) (nextHandle s)
    (emitted s ++
       [io_emit (gameState ps ts (gameTimer s) (leaderboard_of ps))])
    (rounds s).
Proof.
  unfold exec, gameLoop. cbn.
  destruct (collisions (players s) (treasures s)); reflexivity.
Qed.

Lemma exec_joinGame sid playerName e s :
  exec (joinGame sid playerName e) s =
  let s1 :=
    set_players (Obj.set sid (new_player sid playerName e) (players s)) s in
  let s2 :=
    if negb (gameInProgress s1) &&
       (0 <? List.length (Obj.keys (players s1)))%nat
    then exec (startGame e) s1 else s1 in
  set_emitted
    (emitted s2 ++
       [socket_emit sid
          (gameJoined sid (players s2) (treasures s2) (gameTimer s2)
             (leaderboard_of (players s2)))]) s2.
Proof.
  unfold exec, joinGame. cbn -[startGame].
  case_if; [|reflexivity].
  destruct (runState (startGame e) _) as [[] s2]. reflexivity.
Qed.

Lemma exec_move sid position s :
  exec (move sid position) s =
  match Obj.get sid (players s) with
  | Some player =>
      set_players
        (Obj.set sid
           (Player.with_position (Position.x position)
              (Position.y position) (Position.z position) player)
           (players s)) s
  | None => s
  end.
Proof.
  unfold exec, move. cbn.
  destruct (Obj.get sid (players s)); reflexivity.
Qed.

Lemma exec_disconnect sid s :
  exec (disconnect sid) s =
  let ps := Obj.delete sid (players s) in
  if (List.length (Obj.keys ps) =? 0)%nat then
    mkServer ps [] false (gameTimer s)
      (countdownInterval s) (gameLoopInterval s) (treasureSpawnInterval s)
      (clear_handles s) (nextHandle s) (emitted s) (rounds s)
  else set_players ps s.
Proof.
  unfold exec, disconnect, Obj.keys. cbn.
  case_if; reflexivity.
Qed.

Lemma exec_fire h e s :
  exec (fire h e) s =
  match timer_lookup h (timers s) with
  | None => s
  | Some t =>
      exec (run_callback (action t) e)
        (if repeating t then s
         else set_timers (timer_remove h (timers s)) s)
  end.
Proof.
  unfold exec, fire. cbn.
  destruct (timer_lookup h (timers s)) as [t|]; [|reflexivity].
  cbn. destruct (repeating t); reflexivity.
Qed.

(** ** Arrays, objects and the timer table *)

Lemma splice1_length {A : Type} (i : nat) (a : list A) :
  (List.length (splice1 i a) <= List.length a)%nat.
Proof.
  revert i; induction a as [|v a IH]; intros [|i]; cbn; auto.
  specialize (IH i). lia.
Qed.

Lemma splice1_hit {A : Type} (i : nat) (a : list A) (v : A) :
  nth_error a i = Some v ->
  S (List.length (splice1 i a)) = List.length a.
Proof.
  revert i; induction a as [|w a IH]; intros [|i]; cbn; try discriminate.
  - reflexivity.
  - intros H. rewrite (IH _ H). reflexivity.
Qed.

Lemma splice1_In {A : Type} (i : nat) (a : list A) (v : A) :
  In v (splice1 i a) -> In v a.
Proof.
  revert i; induction a as [|w a IH]; intros [|i]; cbn; auto.
  intros [H|H]; eauto.
Qed.

Lemma timer_lookup_remove h tb : timer_lookup h (timer_remove h tb) = None.
Proof.
  induction tb as [|[h' t] tb IH]; cbn; auto.
  destruct (Nat.eqb h h') eqn:E; cbn; auto. now rewrite E.
Qed.

Lemma timer_lookup_remove_other h h' tb :
  h <> h' -> timer_lookup h (timer_remove h' tb) = timer_lookup h tb.
Proof.
  intros N. induction tb as [|[h2 t] tb IH]; cbn; auto.
  destruct (Nat.eqb h' h2) eqn:E; cbn.
  - apply Nat.eqb_eq in E. subst h2.
    destruct (Nat.eqb_spec h h'); [contradiction|exact IH].
  - destruct (Nat.eqb h h2); auto.
Qed.

Lemma timer_lookup_remove_None h h' tb :
  timer_lookup h tb = None -> timer_lookup h (timer_remove h' tb) = None.
Proof.
  intros H. destruct (Nat.eq_dec h h') as [->|N].
  - apply timer_lookup_remove.
  - now rewrite timer_lookup_remove_other.
Qed.

Lemma timer_lookup_remove_Some h h' tb t :
  timer_lookup h (timer_remove h' tb) = Some t -> timer_lookup h tb = Some t.
Proof.
  destruct (Nat.eq_dec h h') as [->|N].
  - now rewrite timer_lookup_remove.
  - now rewrite timer_lookup_remove_other.
Qed.

Lemma timer_lookup_clear_None h o tb :
  timer_lookup h tb = None -> timer_lookup h (timer_clear o tb) = None.
Proof. destruct o; cbn; auto using timer_lookup_remove_None. Qed.

Lemma timer_lookup_clear_Some h o tb t :
  timer_lookup h (timer_clear o tb) = Some t -> timer_lookup h tb = Some t.
Proof. destruct o; cbn; eauto using timer_lookup_remove_Some. Qed.

Lemma timer_lookup_clear_same h tb : timer_lookup h (timer_clear (Some h) tb) = None.
Proof. apply timer_lookup_remove. Qed.

Lemma timer_lookup_clear_other h o tb :
  o <> Some h -> timer_lookup h (timer_clear o tb) = timer_lookup h tb.
Proof.
  destruct o as [h'|]; cbn; auto.
  intros N. apply timer_lookup_remove_other. congruence.
Qed.

Lemma clear_handles_held h s :
  In (Some h) (handles s) -> timer_lookup h (clear_handles s) = None.
Proof.
  unfold handles, clear_handles. cbn. intros [H|[H|[H|[]]]]; rewrite H.
  - apply timer_lookup_clear_None, timer_lookup_clear_None,
      timer_lookup_clear_same.
  - apply timer_lookup_clear_None, timer_lookup_clear_same.
  - apply timer_lookup_clear_same.
Qed.

Lemma clear_handles_other h s :
  ~ In (Some h) (handles s) ->
  timer_lookup h (clear_handles s) = timer_lookup h (timers s).
Proof.
  unfold handles, clear_handles. cbn. intros N.
  rewrite !timer_lookup_clear_other; auto; intros E; tauto.
Qed.

Lemma clear_handles_None h s :
  timer_lookup h (timers s) = None -> timer_lookup h (clear_handles s) = None.
Proof. intros H. unfold clear_handles. auto using timer_lookup_clear_None. Qed.

Lemma clear_handles_Some h s t :
  timer_lookup h (clear_handles s) = Some t ->
  timer_lookup h (timers s) = Some t.
Proof. unfold clear_handles. eauto using timer_lookup_clear_Some. Qed.

Lemma get_set_same {A : Type} k (v : A) o : Obj.get k (Obj.set k v o) = Some v.
Proof.
  induction o as [|[k' v'] o IH]; cbn.
  - now rewrite String.eqb_refl.
  - destruct (String.eqb k k') eqn:E; cbn; rewrite ?String.eqb_refl, ?E; auto.
Qed.

Lemma get_set_other {A : Type} k k' (v : A) o :
  k <> k' -> Obj.get k (Obj.set k' v o) = Obj.get k o.
Proof.
  intros N. induction o as [|[k2 v2] o IH]; cbn.
  - destruct (String.eqb_spec k k'); [contradiction|reflexivity].
  - destruct (String.eqb_spec k' k2) as [->|N2]; cbn.
    + destruct (String.eqb_spec k k2); [contradiction|reflexivity].
    + destruct (String.eqb k k2); auto.
Qed.

Lemma get_In {A : Type} k (v : A) o : Obj.get k o = Some v -> In (k, v) o.
Proof.
  induction o as [|[k' v'] o IH]; cbn; [discriminate|].
  destruct (String.eqb_spec k k') as [->|N]; intros H.
  - injection H as ->. now left.
  - right; auto.
Qed.

Lemma get_not_key {A : Type} k (o : list (string * A)) :
  ~ In k (Obj.keys o) -> Obj.get k o = None.
Proof.
  induction o as [|[k' v'] o IH]; cbn; auto.
  intros N. destruct (String.eqb_spec k k') as [->|_]; [tauto|].
  apply IH. tauto.
Qed.

Lemma keys_set {A : Type} k (v : A) o x :
  In x (Obj.keys (Obj.set k v o)) <-> x = k \/ In x (Obj.keys o).
Proof.
  induction o as [|[k' v'] o IH]; cbn.
  - intuition.
  - destruct (String.eqb_spec k k') as [->|N]; cbn; [intuition|].
    rewrite IH. intuition.
Qed.

Lemma NoDup_keys_set {A : Type} k (v : A) o :
  NoDup (Obj.keys o) -> NoDup (Obj.keys (Obj.set k v o)).
Proof.
  induction o as [|[k' v'] o IH]; cbn; intros H.
  - constructor; [intros []|constructor].
  - inversion H as [|? ? Hn Hd]; subst.
    destruct (String.eqb_spec k k') as [->|N]; cbn.
    + now constructor.
    + constructor; auto. intros Hin.
      apply (proj1 (keys_set _ _ _ _)) in Hin as [->|Hin]; auto.
Qed.

Lemma keys_delete {A : Type} k (o : list (string * A)) x :
  In x (Obj.keys (Obj.delete k o)) -> In x (Obj.keys o).
Proof.
  induction o as [|[k' v'] o IH]; cbn; auto.
  destruct (String.eqb k k'); cbn; intuition.
Qed.

Lemma NoDup_keys_delete {A : Type} k (o : list (string * A)) :
  NoDup (Obj.keys o) -> NoDup (Obj.keys (Obj.delete k o)).
Proof.
  induction o as [|[k' v'] o IH]; cbn; intros H; auto.
  inversion H as [|? ? Hn Hd]; subst.
  destruct (String.eqb k k'); cbn; auto.
  constructor; auto. intros Hin. apply Hn. eapply keys_delete; eauto.
Qed.

Lemma get_delete_same {A : Type} k (o : list (string * A)) :
  NoDup (Obj.keys o) -> Obj.get k (Obj.delete k o) = None.
Proof.
  induction o as [|[k' v'] o IH]; cbn; intros H; auto.
  inversion H as [|? ? Hn Hd]; subst.
  destruct (String.eqb_spec k k') as [->|N]; cbn.
  - now apply get_not_key.
  - destruct (String.eqb_spec k k'); [contradiction|auto].
Qed.

Lemma get_delete_other {A : Type} k k' (o : list (string * A)) :
  k <> k' -> Obj.get k (Obj.delete k' o) = Obj.get k o.
Proof.
  intros N. induction o as [|[k2 v2] o IH]; cbn; auto.
  destruct (String.eqb_spec k' k2) as [->|N2]; cbn.
  - destruct (String.eqb_spec k k2); [contradiction|reflexivity].
  - destruct (String.eqb k k2); auto.
Qed.

Lemma get_filter_key {A : Type} (f : string -> bool) k
    (o : list (string * A)) :
  Obj.get k (filter (fun kv => f (fst kv)) o) =
  if f k then Obj.get k o else None.
Proof.
  induction o as [|[k' v'] o IH]; cbn.
  - now destruct (f k).
  - destruct (f k') eqn:F; cbn.
    + destruct (String.eqb_spec k k') as [->|N].
      * now rewrite F.
      * exact IH.
    + destruct (String.eqb_spec k k') as [->|N].
      * rewrite IH, F. reflexivity.
      * exact IH.
Qed.

Lemma NoDup_keys_filter {A : Type} (f : string * A -> bool) o :
  NoDup (Obj.keys o) -> NoDup (Obj.keys (filter f o)).
Proof.
  induction o as [|[k' v'] o IH]; cbn; intros H; auto.
  inversion H as [|? ? Hn Hd]; subst.
  destruct (f (k', v')); cbn; auto.
  constructor; auto. intros Hin. apply Hn.
  unfold Obj.keys in *. apply in_map_iff in Hin as [[k v] [E Hin]].
  apply filter_In in Hin as [Hin _]. apply in_map_iff. eauto.
Qed.

Lemma keys_update_all {A : Type} (f : A -> A) o :
  Obj.keys (Obj.update_all f o) = Obj.keys o.
Proof.
  unfold Obj.keys, Obj.update_all. rewrite map_map. reflexivity.
Qed.

Lemma get_update_all {A : Type} (f : A -> A) k o :
  Obj.get k (Obj.update_all f o) = option_map f (Obj.get k o).
Proof.
  induction o as [|[k' v'] o IH]; cbn; auto.
  destruct (String.eqb k k'); auto.
Qed.

(** ** The collision loop *)

Lemma forEach_treasure_length todo index player ts :
  (List.length (snd (forEach_treasure todo index player ts))
   <= List.length ts)%nat.
Proof.
  revert index player ts.
  induction todo as [|todo IH]; intros index player ts; cbn; auto.
  destruct (nth_error ts index) as [t|]; auto.
  destruct (collides player t); auto.
  etransitivity; [apply IH|apply splice1_length].
Qed.

Lemma forEach_treasure_In todo index player ts t :
  In t (snd (forEach_treasure todo index player ts)) -> In t ts.
Proof.
  revert index player ts.
  induction todo as [|todo IH]; intros index player ts; cbn; auto.
  destruct (nth_error ts index) as [t'|]; eauto.
  destruct (collides player t'); eauto.
  intros H. eapply splice1_In, IH, H.
Qed.

(** One point per treasure taken out of the array. *)
Lemma forEach_treasure_score todo index player ts :
  Player.score (fst (forEach_treasure todo index player ts))
  + Z.of_nat (List.length (snd (forEach_treasure todo index player ts)))
  = Player.score player + Z.of_nat (List.length ts).
Proof.
  revert index player ts.
  induction todo as [|todo IH]; intros index player ts; cbn; auto.
  destruct (nth_error ts index) as [t|] eqn:E; auto.
  destruct (collides player t); auto.
  rewrite IH. cbn. rewrite <- (splice1_hit _ _ _ E). lia.
Qed.

Lemma forEach_treasure_fields todo index player ts :
  fst (forEach_treasure todo index player ts) =
  Player.with_score
    (Player.score (fst (forEach_treasure todo index player ts))) player.
Proof.
  revert index player ts.
  induction todo as [|todo IH]; intros index player ts; cbn.
  - now destruct player.
  - destruct (nth_error ts index) as [t|]; auto.
    destruct (collides player t); auto.
    rewrite IH at 1. reflexivity.
Qed.

Lemma forEach_treasure_mono todo index player ts :
  Player.score player
  <= Player.score (fst (forEach_treasure todo index player ts)).
Proof.
  pose proof (forEach_treasure_score todo index player ts).
  pose proof (forEach_treasure_length todo index player ts). lia.
Qed.

Lemma collisions_cons playerId player ps ts :
  collisions ((playerId, player) :: ps) ts =
  let r := forEach_treasure (List.length ts) 0 player ts in
  ((playerId, fst r) :: fst (collisions ps (snd r)),
   snd (collisions ps (snd r))).
Proof.
  cbn. destruct (forEach_treasure _ _ _ _) as [p1 ts1]. cbn.
  destruct (collisions ps ts1); reflexivity.
Qed.

Lemma collisions_length ps ts :
  (List.length (snd (collisions ps ts)) <= List.length ts)%nat.
Proof.
  revert ts. induction ps as [|[k p] ps IH]; intros ts; [cbn; auto|].
  rewrite collisions_cons. cbn.
  etransitivity; [apply IH|apply forEach_treasure_length].
Qed.

Lemma collisions_In ps ts t : In t (snd (collisions ps ts)) -> In t ts.
Proof.
  revert ts. induction ps as [|[k p] ps IH]; intros ts; [cbn; auto|].
  rewrite collisions_cons. cbn. intros H.
  eapply forEach_treasure_In, IH, H.
Qed.

Lemma collisions_keys ps ts :
  Obj.keys (fst (collisions ps ts)) = Obj.keys ps.
Proof.
  revert ts. induction ps as [|[k p] ps IH]; intros ts; [reflexivity|].
  rewrite collisions_cons. cbn. f_equal. apply IH.
Qed.

Lemma collisions_get ps ts k p :
  Obj.get k ps = Some p ->
  exists p',
    Obj.get k (fst (collisions ps ts)) = Some p' /\
    Player.score p <= Player.score p' /\
    p' = Player.with_score (Player.score p') p.
Proof.
  revert ts. induction ps as [|[k' q] ps IH]; intros ts; [discriminate|].
  rewrite collisions_cons. cbn.
  destruct (String.eqb k k'); [|apply IH].
  intros H. injection H as ->. eexists. split; [reflexivity|]. split.
  - apply forEach_treasure_mono.
  - apply forEach_treasure_fields.
Qed.

Lemma collisions_nonneg ps ts :
  nonneg_scores ps -> nonneg_scores (fst (collisions ps ts)).
Proof.
  unfold nonneg_scores. revert ts.
  induction ps as [|[k p] ps IH]; intros ts H; [constructor|].
  rewrite collisions_cons. cbn. inversion H; subst. constructor; auto.
  cbn in *. pose proof (forEach_treasure_mono (List.length ts) 0 p ts). lia.
Qed.

(** The points awarded in one tick are the treasures removed. *)
Lemma collisions_total ps ts :
  total_score (fst (collisions ps ts))
  + Z.of_nat (List.length (snd (collisions ps ts)))
  = total_score ps + Z.of_nat (List.length ts).
Proof.
  revert ts. induction ps as [|[k p] ps IH]; intros ts; [reflexivity|].
  rewrite collisions_cons. cbv zeta. unfold total_score in *.
  cbn [fst snd fold_right].
  pose proof (forEach_treasure_score (List.length ts) 0 p ts).
  specialize (IH (snd (forEach_treasure (List.length ts) 0 p ts))). lia.
Qed.

(** ** Sorting by score *)

Lemma sort_insert_perm {A : Type} (cmp : A -> A -> Z) v a :
  Permutation (v :: a) (sort_insert cmp v a).
Proof.
  induction a as [|w a IH]; cbn; auto.
  destruct (0 <? cmp v w); auto.
  etransitivity; [apply perm_swap|]. now constructor.
Qed.

Lemma sort_perm {A : Type} (cmp : A -> A -> Z) a :
  Permutation a (sort cmp a).
Proof.
  induction a as [|v a IH]; cbn; auto.
  etransitivity; [|apply sort_insert_perm]. now constructor.
Qed.

Lemma sort_insert_sorted v a :
  StronglySorted descending a ->
  StronglySorted descending (sort_insert compare_score v a).
Proof.
  induction a as [|w a IH]; cbn; intros H.
  - repeat constructor.
  - inversion H as [|? ? Hs Hf]; subst. unfold compare_score at 1.
    destruct (Z.ltb_spec 0 (Player.score w - Player.score v)).
    + constructor; auto.
      eapply Permutation_Forall; [apply sort_insert_perm|].
      constructor; auto. unfold descending. lia.
    + constructor; auto. constructor; [unfold descending; lia|].
      eapply Forall_impl; [|exact Hf]. unfold descending. intros; lia.
Qed.

Lemma sort_sorted a : StronglySorted descending (sort compare_score a).
Proof.
  induction a as [|v a IH]; cbn; [constructor|].
  now apply sort_insert_sorted.
Qed.

(** Stability: an inserted element only passes elements of strictly
    higher score, so players of equal score keep their order. *)
Lemma sort_insert_stable v x a :
  filter (has_score v) (sort_insert compare_score x a) =
  filter (has_score v) (x :: a).
Proof.
  induction a as [|w a IH]; [reflexivity|].
  cbn [sort_insert]. unfold compare_score at 1.
  destruct (Z.ltb_spec 0 (Player.score w - Player.score x)); [|reflexivity].
  cbn [filter] in *. rewrite IH. unfold has_score.
  destruct (Z.eqb_spec (Player.score w) v), (Z.eqb_spec (Player.score x) v);
    try reflexivity; lia.
Qed.

Lemma sort_stable v a :
  filter (has_score v) (sort compare_score a) = filter (has_score v) a.
Proof.
  induction a as [|x a IH]; [reflexivity|].
  cbn [sort]. rewrite sort_insert_stable. cbn. now rewrite IH.
Qed.

Lemma StronglySorted_firstn {A : Type} (R : A -> A -> Prop) n a :
  StronglySorted R a -> StronglySorted R (firstn n a).
Proof.
  revert n. induction a as [|v a IH]; intros [|n] H; cbn;
    try constructor.
  - inversion H; auto.
  - inversion H as [|? ? _ Hf]; subst.
    rewrite Forall_forall in *. intros y Hy. apply Hf.
    rewrite <- (firstn_skipn n a). apply in_or_app. now left.
Qed.

Lemma StronglySorted_map {A B : Type} (R : A -> A -> Prop)
    (S' : B -> B -> Prop) (f : A -> B) a :
  (forall x y, R x y -> S' (f x) (f y)) ->
  StronglySorted R a -> StronglySorted S' (map f a).
Proof.
  intros HR. induction 1 as [|v a Hs IH Hf]; cbn; constructor; auto.
  rewrite Forall_forall in *. intros y Hy.
  apply in_map_iff in Hy as [x [<- Hx]]. auto.
Qed.

(** ** Invariants of the reachable states *)

Lemma nonneg_set k p ps :
  0 <= Player.score p -> nonneg_scores ps -> nonneg_scores (Obj.set k p ps).
Proof.
  unfold nonneg_scores. intros Hp.
  induction ps as [|[k' q] ps IH]; cbn; intros H.
  - repeat constructor. exact Hp.
  - inversion H; subst. destruct (String.eqb k k'); constructor; auto.
Qed.

Lemma nonneg_delete k ps :
  nonneg_scores ps -> nonneg_scores (Obj.delete k ps).
Proof.
  unfold nonneg_scores.
  induction ps as [|[k' q] ps IH]; cbn; intros H; auto.
  inversion H; subst. destruct (String.eqb k k'); auto.
Qed.

Lemma nonneg_filter f ps :
  nonneg_scores ps -> nonneg_scores (filter f ps).
Proof.
  unfold nonneg_scores. rewrite !Forall_forall. intros H kv Hin.
  apply filter_In in Hin as [Hin _]. auto.
Qed.

Lemma nonneg_reset ps :
  nonneg_scores (Obj.update_all (Player.with_score 0) ps).
Proof.
  unfold nonneg_scores, Obj.update_all. rewrite Forall_forall.
  intros kv Hin. apply in_map_iff in Hin as [kv' [<- _]]. cbn. lia.
Qed.

Lemma nonneg_get k p ps :
  nonneg_scores ps -> Obj.get k ps = Some p -> 0 <= Player.score p.
Proof.
  unfold nonneg_scores. rewrite Forall_forall. intros H G.
  apply get_In in G. apply (H _ G).
Qed.

Lemma invariant_initial : invariant initial.
Proof.
  constructor; cbn; try discriminate.
  - constructor.
  - constructor.
  - unfold MAX_TREASURES. lia.
  - intuition discriminate.
Qed.

Lemma invariant_spawnTreasure e s :
  invariant s -> invariant (exec (spawnTreasure e) s).
Proof.
  intros []. rewrite exec_spawnTreasure.
  destruct (Nat.leb_spec MAX_TREASURES (List.length (treasures s)));
    [constructor; assumption|].
  constructor; cbn; auto. rewrite length_app. cbn. lia.
Qed.

Lemma invariant_startGame e s :
  invariant s -> invariant (exec (startGame e) s).
Proof.
  intros []. rewrite exec_startGame. constructor; cbn.
  - apply nonneg_reset.
  - change (NoDup (Obj.keys (Obj.update_all (Player.with_score 0) (players s)))).
    now rewrite keys_update_all.
  - unfold MAX_TREASURES. lia.
  - intros h t.
    repeat match goal with
      | |- context [Nat.eqb h ?x] =>
          destruct (Nat.eqb_spec h x); [intros _; lia|]
      end.
    intros H. apply inv_timers0 in H. lia.
  - intros h [H|[H|[H|[]]]]; injection H as <-; lia.
  - intros h t.
    repeat match goal with
      | |- context [Nat.eqb h ?x] =>
          destruct (Nat.eqb h x); [intros [= <-]; reflexivity|]
      end.
    apply inv_timeout0.
  - intros h t [H|[H|[H|[]]]]; injection H as <-;
      repeat match goal with
        | |- context [Nat.eqb ?a ?x] => destruct (Nat.eqb_spec a x); try lia
        end;
      intros [= <-]; reflexivity.
Qed.

Lemma invariant_endGame s : invariant s -> invariant (exec endGame s).
Proof.
  intros []. rewrite exec_endGame. constructor; cbn; auto.
  - intros h t. destruct (Nat.eqb_spec h (nextHandle s)); [lia|].
    intros H. apply clear_handles_Some, inv_timers0 in H. lia.
  - intros h H. apply inv_handles0 in H. lia.
  - intros h t. destruct (Nat.eqb h (nextHandle s));
      [intros [= <-]; reflexivity|].
    intros H. apply clear_handles_Some in H. eauto.
  - intros h t Hh. pose proof (inv_handles0 h Hh).
    destruct (Nat.eqb_spec h (nextHandle s)); [lia|].
    change (handles _) with (handles s) in Hh.
    rewrite (clear_handles_held h s Hh). discriminate.
Qed.

Lemma invariant_set_gameTimer v s :
  invariant s -> invariant (set_gameTimer v s).
Proof. intros []. constructor; assumption. Qed.

Lemma invariant_countdown s : invariant s -> invariant (exec countdown s).
Proof.
  intros H. rewrite exec_countdown.
  destruct (gameTimer s - 1 <=? 0);
    auto using invariant_endGame, invariant_set_gameTimer.
Qed.

Lemma invariant_restart e s : invariant s -> invariant (exec (restart e) s).
Proof.
  intros H. rewrite exec_restart. cbv zeta.
  assert (invariant
            (set_players
               (filter (fun kv => includes (connectedSocketIds e) (fst kv))
                  (players s)) s)) as H1.
  { destruct H. constructor; cbn; auto using nonneg_filter.
    now apply NoDup_keys_filter. }
  case_if; auto using invariant_startGame.
Qed.

Lemma invariant_gameLoop s : invariant s -> invariant (exec gameLoop s).
Proof.
  intros []. rewrite exec_gameLoop. constructor; cbn; auto.
  - now apply collisions_nonneg.
  - change (NoDup (Obj.keys (fst (collisions (players s) (treasures s))))).
    now rewrite collisions_keys.
  - etransitivity; [apply collisions_length|assumption].
Qed.

Lemma invariant_joinGame sid playerName e s :
  invariant s -> invariant (exec (joinGame sid playerName e) s).
Proof.
  intros H. rewrite exec_joinGame. cbv zeta.
  assert (invariant
            (set_players
               (Obj.set sid (new_player sid playerName e) (players s)) s))
    as H1.
  { destruct H. constructor; cbn; auto.
    - apply nonneg_set; [cbn; lia|assumption].
    - now apply NoDup_keys_set. }
  match goal with |- invariant (set_emitted _ ?s2) =>
    assert (invariant s2) as [] by (case_if; auto using invariant_startGame)
  end.
  constructor; assumption.
Qed.

Lemma invariant_move sid position s :
  invariant s -> invariant (exec (move sid position) s).
Proof.
  intros H. rewrite exec_move.
  destruct (Obj.get sid (players s)) as [p|] eqn:G; [|assumption].
  destruct H. constructor; cbn; auto.
  - apply nonneg_set; [|assumption]. cbn. eapply nonneg_get; eauto.
  - now apply NoDup_keys_set.
Qed.

Lemma invariant_disconnect sid s :
  invariant s -> invariant (exec (disconnect sid) s).
Proof.
  intros []. rewrite exec_disconnect. cbv zeta.
  case_if; constructor; cbn; auto using nonneg_delete.
  - now apply NoDup_keys_delete.
  - unfold MAX_TREASURES. lia.
  - intros h t H. apply clear_handles_Some in H. eauto.
  - intros h t H. apply clear_handles_Some in H. eauto.
  - intros h t Hh. change (handles _) with (handles s) in Hh.
    rewrite (clear_handles_held h s Hh). discriminate.
  - now apply NoDup_keys_delete.
Qed.

Lemma invariant_fire h e s : invariant s -> invariant (exec (fire h e) s).
Proof.
  intros H. rewrite exec_fire.
  destruct (timer_lookup h (timers s)) as [t|]; [|assumption].
  assert (invariant
            (if repeating t then s
             else set_timers (timer_remove h (timers s)) s)) as H1.
  { destruct (repeating t); [assumption|].
    destruct H. constructor; cbn; auto.
    - intros h' t' G. apply timer_lookup_remove_Some in G. eauto.
    - intros h' t' G. apply timer_lookup_remove_Some in G. eauto.
    - intros h' t' Hh G. apply timer_lookup_remove_Some in G.
      exact (inv_held0 h' t' Hh G). }
  destruct (action t); cbn [run_callback];
    auto using invariant_gameLoop, invariant_spawnTreasure,
      invariant_countdown, invariant_restart.
Qed.

Lemma invariant_step ev e s : invariant s -> invariant (step ev e s).
Proof.
  intros H. destruct ev; unfold step; cbn [handle].
  - now apply invariant_joinGame.
  - now apply invariant_move.
  - now apply invariant_disconnect.
  - now apply invariant_fire.
Qed.

Lemma invariant_run trace s : invariant s -> invariant (run trace s).
Proof.
  revert s. induction trace as [|[ev e] trace IH]; intros s H; cbn; auto.
  apply IH, invariant_step, H.
Qed.

Lemma invariant_reachable trace : invariant (run trace initial).
Proof. apply invariant_run, invariant_initial. Qed.

(** ** Cancelled timers

    A handle that was allocated and is no longer in the timer table
    never comes back: handles are allocated in increasing order. *)

Lemma cancelled_spawnTreasure h e s :
  cancelled h s -> cancelled h (exec (spawnTreasure e) s).
Proof.
  rewrite exec_spawnTreasure. case_if; auto.
Qed.

Lemma cancelled_startGame h e s :
  cancelled h s -> cancelled h (exec (startGame e) s).
Proof.
  intros [Hlt Hn]. rewrite exec_startGame. split; cbn; [lia|].
  repeat match goal with
    | |- context [Nat.eqb h ?x] => destruct (Nat.eqb_spec h x); [lia|]
    end.
  exact Hn.
Qed.

Lemma cancelled_endGame h s : cancelled h s -> cancelled h (exec endGame s).
Proof.
  intros [Hlt Hn]. rewrite exec_endGame. split; cbn; [lia|].
  destruct (Nat.eqb_spec h (nextHandle s)); [lia|].
  now apply clear_handles_None.
Qed.

Lemma cancelled_countdown h s :
  cancelled h s -> cancelled h (exec countdown s).
Proof.
  intros H. rewrite exec_countdown. case_if; [|exact H].
  apply cancelled_endGame. exact H.
Qed.

Lemma cancelled_restart h e s :
  cancelled h s -> cancelled h (exec (restart e) s).
Proof.
  intros H. rewrite exec_restart. cbv zeta. case_if; [|exact H].
  apply cancelled_startGame. exact H.
Qed.

Lemma cancelled_gameLoop h s :
  cancelled h s -> cancelled h (exec gameLoop s).
Proof. intros H. rewrite exec_gameLoop. exact H. Qed.

Lemma cancelled_joinGame h sid playerName e s :
  cancelled h s -> cancelled h (exec (joinGame sid playerName e) s).
Proof.
  intros H. rewrite exec_joinGame. cbv zeta.
  match goal with |- cancelled h (set_emitted _ ?s2) =>
    assert (cancelled h s2) as H2
  end.
  { case_if; [|exact H]. apply cancelled_startGame. exact H. }
  exact H2.
Qed.

Lemma cancelled_move h sid position s :
  cancelled h s -> cancelled h (exec (move sid position) s).
Proof.
  intros H. rewrite exec_move. destruct (Obj.get sid (players s)); exact H.
Qed.

Lemma cancelled_disconnect h sid s :
  cancelled h s -> cancelled h (exec (disconnect sid) s).
Proof.
  intros [Hlt Hn]. rewrite exec_disconnect. cbv zeta.
  case_if; split; cbn; auto using clear_handles_None.
Qed.

Lemma cancelled_fire h h' e s :
  cancelled h s -> cancelled h (exec (fire h' e) s).
Proof.
  intros H. rewrite exec_fire.
  destruct (timer_lookup h' (timers s)) as [t|]; [|exact H].
  assert (cancelled h
            (if repeating t then s
             else set_timers (timer_remove h' (timers s)) s)) as H1.
  { destruct (repeating t); [exact H|]. destruct H as [Hlt Hn].
    split; cbn; auto using timer_lookup_remove_None. }
  destruct (action t); cbn [run_callback];
    auto using cancelled_gameLoop, cancelled_spawnTreasure,
      cancelled_countdown, cancelled_restart.
Qed.

Lemma cancelled_step h ev e s : cancelled h s -> cancelled h (step ev e s).
Proof.
  intros H. destruct ev; unfold step; cbn [handle].
  - now apply cancelled_joinGame.
  - now apply cancelled_move.
  - now apply cancelled_disconnect.
  - now apply cancelled_fire.
Qed.

Lemma cancelled_run h trace s : cancelled h s -> cancelled h (run trace s).
Proof.
  revert s. induction trace as [|[ev e] trace IH]; intros s H; cbn; auto.
  apply IH, cancelled_step, H.
Qed.

(** The callback of a handle that is not in the table is not run. *)
Lemma fire_absent h e s :
  timer_lookup h (timers s) = None -> step (on_timer h) e s = s.
Proof.
  intros H. unfold step. cbn [handle]. rewrite exec_fire, H. reflexivity.
Qed.

Lemma cancelled_never_fires h trace e s :
  cancelled h s -> step (on_timer h) e (run trace s) = run trace s.
Proof.
  intros H. apply fire_absent. now apply (cancelled_run h trace s).
Qed.

(** ** The winner loop *)

Lemma winner_fold vs : forall o hs,
  (Forall (fun p => Player.score p <= hs) vs /\
   fold_left winner_step vs (o, hs) = (o, hs)) \/
  (exists before w after,
     vs = before ++ w :: after /\
     hs < Player.score w /\
     Forall (fun p => Player.score p < Player.score w) before /\
     Forall (fun p => Player.score p <= Player.score w) after /\
     fold_left winner_step vs (o, hs) = (Some w, Player.score w)).
Proof.
  induction vs as [|p vs IH]; intros o hs.
  - left. split; [constructor|reflexivity].
  - cbn [fold_left]. unfold winner_step at 2 4. cbn [snd].
    destruct (Z.ltb_spec hs (Player.score p)) as [Hlt|Hge].
    + right.
      destruct (IH (Some p) (Player.score p))
        as [[Hall ->]|(b & w & a & -> & Hw & Hb & Ha & ->)].
      * exists (@nil Player.t). exists p. exists vs. repeat split; auto.
      * exists (p :: b). exists w. exists a. repeat split; auto. lia.
    + destruct (IH o hs) as [[Hall ->]|(b & w & a & -> & Hw & Hb & Ha & ->)].
      * left. split; auto.
      * right. exists (p :: b). exists w. exists a. repeat split; auto.
        constructor; auto. lia.
Qed.

Lemma values_nonneg ps :
  nonneg_scores ps -> Forall (fun p => 0 <= Player.score p) (Obj.values ps).
Proof.
  unfold nonneg_scores, Obj.values. rewrite !Forall_forall.
  intros H p Hin. apply in_map_iff in Hin as [kv [<- Hin]]. auto.
Qed.

Lemma values_In (ps : list (string * Player.t)) (w : Player.t) :
  In w (Obj.values ps) -> exists k, In (k, w) ps.
Proof.
  unfold Obj.values. intros Hin.
  apply in_map_iff in Hin as [[k v] [E Hin]]. cbn in E. subst v. eauto.
Qed.

(** With no player the loop leaves [winner] at [null]; otherwise the
    winner is the first player, in property order, of maximal score. *)
Lemma determineWinner_spec ps :
  nonneg_scores ps ->
  (ps = [] /\ fst (determineWinner ps) = None) \/
  (exists before w after,
     Obj.values ps = before ++ w :: after /\
     Forall (fun p => Player.score p < Player.score w) before /\
     Forall (fun p => Player.score p <= Player.score w) after /\
     fst (determineWinner ps) = Some w).
Proof.
  intros Hnn. apply values_nonneg in Hnn. unfold determineWinner.
  destruct (winner_fold (Obj.values ps) None (-1))
    as [[Hall ->]|(b & w & a & E & Hw & Hb & Ha & ->)].
  - left. split; [|reflexivity].
    destruct ps as [|[k p] ps]; [reflexivity|].
    cbn in Hall, Hnn. inversion Hall; inversion Hnn; subst. lia.
  - right. exists b. exists w. exists a. auto.
Qed.

(** ** Firing a timer *)

Lemma fire_interval h t e s :
  invariant s ->
  timer_lookup h (timers s) = Some t ->
  action t <> cb_restart ->
  step (on_timer h) e s = exec (run_callback (action t) e) s.
Proof.
  intros Hinv Ht Hcb. unfold step. cbn [handle]. rewrite exec_fire, Ht.
  rewrite (inv_timeout _ Hinv h t Ht).
  destruct (action t); try reflexivity. contradiction.
Qed.

Lemma fire_timeout h t e s :
  invariant s ->
  timer_lookup h (timers s) = Some t ->
  action t = cb_restart ->
  step (on_timer h) e s =
  exec (restart e) (set_timers (timer_remove h (timers s)) s).
Proof.
  intros Hinv Ht Hcb. unfold step. cbn [handle]. rewrite exec_fire, Ht.
  rewrite (inv_timeout _ Hinv h t Ht), Hcb. reflexivity.
Qed.

Lemma fire_countdown_zero h t e s :
  invariant s ->
  timer_lookup h (timers s) = Some t ->
  action t = cb_countdown ->
  gameTimer s - 1 <= 0 ->
  step (on_timer h) e s = exec endGame (set_gameTimer (gameTimer s - 1) s).
Proof.
  intros Hinv Ht Hcb Hzero.
  rewrite (fire_interval h t e s Hinv Ht) by congruence.
  rewrite Hcb. cbn [run_callback]. rewrite exec_countdown.
  destruct (Z.leb_spec (gameTimer s - 1) 0); [reflexivity|lia].
Qed.

Lemma endGame_cancels h s :
  invariant s -> In (Some h) (handles s) -> cancelled h (exec endGame s).
Proof.
  intros Hinv Hh. pose proof (inv_handles _ Hinv h Hh) as Hlt.
  rewrite exec_endGame. split; cbn; [lia|].
  destruct (Nat.eqb_spec h (nextHandle s)); [lia|].
  now apply clear_handles_held.
Qed.

Lemma round_end_cancels h hc t e s :
  invariant s ->
  timer_lookup hc (timers s) = Some t ->
  action t = cb_countdown ->
  gameTimer s - 1 <= 0 ->
  In (Some h) (handles s) ->
  cancelled h (step (on_timer hc) e s).
Proof.
  intros Hinv Ht Hcb Hzero Hh.
  rewrite (fire_countdown_zero hc t e s Hinv Ht Hcb Hzero).
  apply endGame_cancels; [now apply invariant_set_gameTimer|exact Hh].
Qed.

Lemma last_disconnect_state sid e s :
  Obj.delete sid (players s) = [] ->
  step (on_disconnect sid) e s =
  mkServer [] [] false (gameTimer s)
    (countdownInterval s) (gameLoopInterval s) (treasureSpawnInterval s)
    (clear_handles s) (nextHandle s) (emitted s) (rounds s).
Proof.
  intros E. unfold step. cbn [handle]. rewrite exec_disconnect. cbv zeta.
  rewrite E. reflexivity.
Qed.

Lemma last_disconnect_cancels h sid e s :
  invariant s ->
  Obj.delete sid (players s) = [] ->
  In (Some h) (handles s) ->
  cancelled h (step (on_disconnect sid) e s).
Proof.
  intros Hinv E Hh. rewrite (last_disconnect_state sid e s E).
  split; cbn.
  - apply (inv_handles _ Hinv h Hh).
  - now apply clear_handles_held.
Qed.

Lemma clear_handles_keeps_timeout h t s :
  invariant s ->
  timer_lookup h (timers s) = Some t ->
  action t = cb_restart ->
  timer_lookup h (clear_handles s) = Some t.
Proof.
  intros Hinv Ht Hcb. rewrite clear_handles_other; [exact Ht|].
  intros Hh. pose proof (inv_held _ Hinv h t Hh Ht) as H.
  rewrite Hcb in H. discriminate.
Qed.

(** ** One tick *)

(** What one tick does guarantee: the treasures that remain were there
    before, and the points awarded are the treasures removed. *)
Lemma gameLoop_collects s :
  (forall t, In t (treasures (exec gameLoop s)) -> In t (treasures s)) /\
  total_score (players (exec gameLoop s))
  + Z.of_nat (List.length (treasures (exec gameLoop s)))
  = total_score (players s) + Z.of_nat (List.length (treasures s)).
Proof.
  rewrite exec_gameLoop. cbn [treasures players]. split.
  - intros t. apply collisions_In.
  - apply collisions_total.
Qed.

Lemma cap_step ev e s :
  (List.length (treasures s) <= MAX_TREASURES)%nat ->
  (List.length (treasures (step ev e s)) <= MAX_TREASURES)%nat.
Proof.
  assert (Hspawn : forall s0,
    (List.length (treasures s0) <= MAX_TREASURES)%nat ->
    (List.length (treasures (exec (spawnTreasure e) s0)) <= MAX_TREASURES)%nat).
  { intros s0 H0. rewrite exec_spawnTreasure.
    destruct (Nat.leb_spec MAX_TREASURES (List.length (treasures s0)));
      [assumption|].
    cbn. rewrite length_app. cbn. lia. }
  assert (Hstart : forall s0,
    (List.length (treasures (exec (startGame e) s0)) <= MAX_TREASURES)%nat).
  { intros s0. rewrite exec_startGame. cbn. unfold MAX_TREASURES. lia. }
  assert (Hloop : forall s0,
    (List.length (treasures s0) <= MAX_TREASURES)%nat ->
    (List.length (treasures (exec gameLoop s0)) <= MAX_TREASURES)%nat).
  { intros s0 H0. rewrite exec_gameLoop. cbn.
    etransitivity; [apply collisions_length|assumption]. }
  intros H. destruct ev; unfold step; cbn [handle].
  - rewrite exec_joinGame. cbv zeta. cbn [treasures set_emitted].
    case_if; [apply Hstart|exact H].
  - rewrite exec_move. destruct (Obj.get sid (players s)); exact H.
  - rewrite exec_disconnect. cbv zeta. case_if; [cbn; lia|exact H].
  - rewrite exec_fire. destruct (timer_lookup h (timers s)) as [t|]; [|exact H].
    assert ((List.length
               (treasures
                  (if repeating t then s
                   else set_timers (timer_remove h (timers s)) s))
             <= MAX_TREASURES)%nat) as H1 by (destruct (repeating t); exact H).
    destruct (action t); cbn [run_callback]; auto.
    + rewrite exec_countdown. case_if; [rewrite exec_endGame|]; exact H1.
    + rewrite exec_restart. cbv zeta. case_if; [apply Hstart|exact H1].
Qed.

(** ** Scores from event to event *)

Lemma zero_scores_reset ps :
  zero_scores (Obj.update_all (Player.with_score 0) ps).
Proof.
  unfold zero_scores, Obj.update_all. rewrite Forall_forall.
  intros kv Hin. apply in_map_iff in Hin as [kv' [<- _]]. reflexivity.
Qed.

Lemma startGame_players e s :
  players (exec (startGame e) s) =
  Obj.update_all (Player.with_score 0) (players s).
Proof. rewrite exec_startGame. reflexivity. Qed.

Lemma startGame_rounds e s : rounds (exec (startGame e) s) = S (rounds s).
Proof. rewrite exec_startGame. reflexivity. Qed.

Lemma score_step_joinGame name e s sid sid' p p' :
  Obj.get sid (players s) = Some p ->
  Obj.get sid (players (exec (joinGame sid' name e) s)) = Some p' ->
  Player.score p <= Player.score p' \/
  Player.score p' = 0 /\
  (rounds (exec (joinGame sid' name e) s) = S (rounds s) \/ sid' = sid).
Proof.
  rewrite exec_joinGame. cbv zeta. cbn [players rounds set_emitted].
  intros G. case_if.
  - rewrite startGame_players, startGame_rounds, get_update_all.
    cbn [players rounds set_players].
    destruct (Obj.get sid (Obj.set sid' _ _)); intros [= <-]. auto.
  - cbn [players rounds set_players].
    destruct (String.eqb_spec sid sid') as [->|N].
    + rewrite get_set_same. intros [= <-]. right. auto.
    + rewrite get_set_other, G by assumption. intros [= <-]. left. lia.
Qed.

Lemma score_step_move position s sid sid' p p' :
  Obj.get sid (players s) = Some p ->
  Obj.get sid (players (exec (move sid' position) s)) = Some p' ->
  Player.score p <= Player.score p'.
Proof.
  rewrite exec_move. intros G.
  destruct (Obj.get sid' (players s)) as [q|] eqn:G'.
  - cbn [players set_players].
    destruct (String.eqb_spec sid sid') as [->|N].
    + rewrite get_set_same. intros [= <-]. cbn. replace q with p by congruence.
      lia.
    + rewrite get_set_other, G by assumption. intros [= <-]. lia.
  - rewrite G. intros [= <-]. lia.
Qed.

Lemma score_step_disconnect s sid sid' p p' :
  NoDup (Obj.keys (players s)) ->
  Obj.get sid (players s) = Some p ->
  Obj.get sid (players (exec (disconnect sid') s)) = Some p' ->
  Player.score p <= Player.score p'.
Proof.
  rewrite exec_disconnect. cbv zeta. intros Hnd G.
  assert (Obj.get sid (Obj.delete sid' (players s)) = Some p' ->
          Player.score p <= Player.score p') as H.
  { destruct (String.eqb_spec sid sid') as [->|N].
    - rewrite get_delete_same by assumption. discriminate.
    - rewrite get_delete_other, G by assumption. intros [= <-]. lia. }
  case_if; exact H.
Qed.

Lemma score_step_fire h e s sid p p' :
  Obj.get sid (players s) = Some p ->
  Obj.get sid (players (exec (fire h e) s)) = Some p' ->
  Player.score p <= Player.score p' \/
  Player.score p' = 0 /\ rounds (exec (fire h e) s) = S (rounds s).
Proof.
  rewrite exec_fire. intros G.
  destruct (timer_lookup h (timers s)) as [t|];
    [|rewrite G; intros [= <-]; left; lia].
  set (s0 := if repeating t then s
             else set_timers (timer_remove h (timers s)) s).
  assert (players s0 = players s /\ rounds s0 = rounds s) as [Ep Er]
    by (unfold s0; destruct (repeating t); auto).
  rewrite <- Ep in G. rewrite <- Er. clearbody s0.
  destruct (action t); cbn [run_callback].
  - rewrite exec_gameLoop. cbn [players].
    destruct (collisions_get _ (treasures s0) _ _ G) as (q & -> & Hle & _).
    intros [= <-]. auto.
  - rewrite exec_spawnTreasure. case_if; cbn [players set_treasures];
      rewrite G; intros [= <-]; left; lia.
  - rewrite exec_countdown. case_if; [rewrite exec_endGame|];
      cbn [players set_gameTimer]; rewrite G; intros [= <-]; left; lia.
  - rewrite exec_restart. cbv zeta. case_if.
    + rewrite startGame_players, startGame_rounds, get_update_all.
      cbn [players rounds set_players].
      destruct (Obj.get sid (filter _ _)); intros [= <-]. auto.
    + cbn [players set_players].
      rewrite (get_filter_key (includes (connectedSocketIds e))).
      destruct (includes (connectedSocketIds e) sid); [|discriminate].
      rewrite G. intros [= <-]. left. lia.
Qed.

Lemma round_start_zeroes ev e s :
  rounds (step ev e s) <> rounds s -> zero_scores (players (step ev e s)).
Proof.
  destruct ev; unfold step; cbn [handle].
  - rewrite exec_joinGame. cbv zeta. cbn [players rounds set_emitted].
    case_if; [intros _|intros H; now elim H].
    rewrite startGame_players. apply zero_scores_reset.
  - rewrite exec_move. destruct (Obj.get sid (players s));
      intros H; now elim H.
  - rewrite exec_disconnect. cbv zeta. case_if; intros H; now elim H.
  - rewrite exec_fire. destruct (timer_lookup h (timers s)) as [t|];
      [|intros H; now elim H].
    set (s0 := if repeating t then s
               else set_timers (timer_remove h (timers s)) s).
    assert (rounds s0 = rounds s) as <-
      by (unfold s0; destruct (repeating t); auto).
    clearbody s0. destruct (action t); cbn [run_callback].
    + rewrite exec_gameLoop. intros H; now elim H.
    + rewrite exec_spawnTreasure. case_if; intros H; now elim H.
    + rewrite exec_countdown. case_if; [rewrite exec_endGame|];
        intros H; now elim H.
    + rewrite exec_restart. cbv zeta. case_if; [intros _|intros H; now elim H].
      rewrite startGame_players. apply zero_scores_reset.
Qed.

(** ** The restart timeout *)

Lemma waiting_spawnTreasure h t e s :
  waiting h t s -> waiting h t (exec (spawnTreasure e) s).
Proof. rewrite exec_spawnTreasure. case_if; auto. Qed.

Lemma waiting_startGame h t e s :
  waiting h t s -> waiting h t (exec (startGame e) s).
Proof.
  intros (Hl & Hlt & Hh). rewrite exec_startGame. unfold waiting. cbn.
  split; [|split].
  - repeat match goal with
      | |- context [Nat.eqb h ?x] => destruct (Nat.eqb_spec h x); [lia|]
      end.
    exact Hl.
  - lia.
  - intros [E|[E|[E|[]]]]; injection E as E; lia.
Qed.

Lemma waiting_endGame h t s : waiting h t s -> waiting h t (exec endGame s).
Proof.
  intros (Hl & Hlt & Hh). rewrite exec_endGame. unfold waiting.
  cbn [timers nextHandle timer_lookup]. split; [|split].
  - destruct (Nat.eqb_spec h (nextHandle s)); [lia|].
    rewrite clear_handles_other; assumption.
  - lia.
  - exact Hh.
Qed.

Lemma waiting_countdown h t s :
  waiting h t s -> waiting h t (exec countdown s).
Proof.
  intros H. rewrite exec_countdown. case_if; [|exact H].
  apply waiting_endGame. exact H.
Qed.

Lemma waiting_restart h t e s :
  waiting h t s -> waiting h t (exec (restart e) s).
Proof.
  intros H. rewrite exec_restart. cbv zeta. case_if; [|exact H].
  apply waiting_startGame. exact H.
Qed.

Lemma waiting_gameLoop h t s : waiting h t s -> waiting h t (exec gameLoop s).
Proof. intros H. rewrite exec_gameLoop. exact H. Qed.

Lemma waiting_joinGame h t sid playerName e s :
  waiting h t s -> waiting h t (exec (joinGame sid playerName e) s).
Proof.
  intros H. rewrite exec_joinGame. cbv zeta.
  match goal with |- waiting h t (set_emitted _ ?s2) =>
    assert (waiting h t s2) as H2
  end.
  { case_if; [|exact H]. apply waiting_startGame. exact H. }
  exact H2.
Qed.

Lemma waiting_move h t sid position s :
  waiting h t s -> waiting h t (exec (move sid position) s).
Proof.
  intros H. rewrite exec_move. destruct (Obj.get sid (players s)); exact H.
Qed.

Lemma waiting_disconnect h t sid s :
  waiting h t s -> waiting h t (exec (disconnect sid) s).
Proof.
  intros (Hl & Hlt & Hh). rewrite exec_disconnect. cbv zeta.
  case_if; unfold waiting; cbn [timers nextHandle set_players];
    (split; [|split]); try assumption.
  rewrite clear_handles_other; assumption.
Qed.

Lemma waiting_fire h t h' e s :
  h' <> h -> waiting h t s -> waiting h t (exec (fire h' e) s).
Proof.
  intros N H. rewrite exec_fire.
  destruct (timer_lookup h' (timers s)) as [t'|]; [|exact H].
  assert (waiting h t
            (if repeating t' then s
             else set_timers (timer_remove h' (timers s)) s)) as H1.
  { destruct (repeating t'); [exact H|]. destruct H as (Hl & Hlt & Hh).
    unfold waiting. cbn [timers nextHandle set_timers].
    split; [|split]; try assumption.
    rewrite timer_lookup_remove_other; auto. }
  destruct (action t'); cbn [run_callback];
    auto using waiting_gameLoop, waiting_spawnTreasure,
      waiting_countdown, waiting_restart.
Qed.

Lemma waiting_step h t ev e s :
  ev <> on_timer h -> waiting h t s -> waiting h t (step ev e s).
Proof.
  intros N H. destruct ev as [sid n|sid pos|sid|h']; unfold step;
    cbn [handle].
  - now apply waiting_joinGame.
  - now apply waiting_move.
  - now apply waiting_disconnect.
  - apply waiting_fire; [congruence|exact H].
Qed.

Lemma waiting_run h t trace s :
  Forall (fun step_env => fst step_env <> on_timer h) trace ->
  waiting h t s -> waiting h t (run trace s).
Proof.
  revert s. induction trace as [|[ev e] trace IH]; intros s Hf H; cbn; auto.
  inversion Hf; subst. apply IH; [assumption|].
  now apply waiting_step.
Qed.

(** A scheduled restart timeout is held in no handle variable. *)
Lemma timeout_waiting h t s :
  invariant s ->
  timer_lookup h (timers s) = Some t ->
  action t = cb_restart ->
  waiting h t s.
Proof.
  intros Hinv Ht Hcb. split; [exact Ht|]. split.
  - apply (inv_timers _ Hinv h t Ht).
  - intros Hh. pose proof (inv_held _ Hinv h t Hh Ht) as H.
    rewrite Hcb in H. discriminate.
Qed.

(** What the callback of the restart timeout does when it runs. *)
Lemma restart_fires trace h t e :
  let s := run trace initial in
  timer_lookup h (timers s) = Some t ->
  action t = cb_restart ->
  let kept :=
    filter (fun kv => includes (connectedSocketIds e) (fst kv))
      (players s) in
  let s' := step (on_timer h) e s in
  cancelled h s' /\
  (kept = [] ->
   s' = set_players [] (set_timers (timer_remove h (timers s)) s)) /\
  (kept <> [] ->
   rounds s' = S (rounds s) /\
   gameInProgress s' = true /\
   gameTimer s' = 60 /\
   treasures s' = [new_treasure e] /\
   players s' = Obj.update_all (Player.with_score 0) kept).
Proof.
  intros s Ht Hcb kept s'.
  pose proof (invariant_reachable trace) as Hinv. fold s in Hinv.
  assert (cancelled h (set_timers (timer_remove h (timers s)) s)) as Hc.
  { split; cbn; [apply (inv_timers _ Hinv h t Ht)|apply timer_lookup_remove]. }
  unfold s'. rewrite (fire_timeout h t e s Hinv Ht Hcb).
  split; [apply cancelled_restart, Hc|].
  rewrite exec_restart. cbv zeta. cbn [players set_players set_timers].
  fold kept.
  split; intros Hk.
  - rewrite Hk. reflexivity.
  - destruct kept as [|kv kept']; [contradiction|]. cbn [Obj.keys map
      List.length Nat.ltb Nat.leb].
    rewrite exec_startGame. cbn. repeat split.
Qed.

(** Whatever ids are listed, the callback changes a registry in which
    some player has points: it either drops players or zeroes the
    scores. *)
Lemma restart_changes_registry trace h t e k p :
  let s := run trace initial in
  timer_lookup h (timers s) = Some t ->
  action t = cb_restart ->
  Obj.get k (players s) = Some p ->
  Player.score p <> 0 ->
  players (step (on_timer h) e s) <> players s.
Proof.
  intros s Ht Hcb G Hp.
  destruct (restart_fires trace h t e Ht Hcb) as (_ & Hnone & Hsome).
  fold s in Hnone, Hsome.
  destruct (filter (fun kv => includes (connectedSocketIds e) (fst kv))
              (players s)) as [|kv kept] eqn:E.
  - rewrite (Hnone eq_refl). cbn [players set_players]. intros E'.
    rewrite <- E' in G. discriminate.
  - destruct Hsome as (_ & _ & _ & _ & ->); [discriminate|].
    intros E'. rewrite <- E', get_update_all in G.
    destruct (Obj.get k (kv :: kept)); [|discriminate].
    injection G as <-. apply Hp. reflexivity.
Qed.

Lemma filter_no_ids {A : Type} e (ps : list (string * A)) :
  no_ids_listed e ->
  filter (fun kv => includes (connectedSocketIds e) (fst kv)) ps = [].
Proof.
  unfold no_ids_listed. intros ->. induction ps as [|kv ps IH]; auto.
Qed.

Lemma only_held_startGame e s :
  gameInProgress s = false ->
  only_held_intervals s ->
  only_held_intervals (exec (startGame e) s).
Proof.
  intros Hidle H. rewrite exec_startGame. intros h t. cbn.
  repeat match goal with
    | |- context [Nat.eqb h ?x] =>
        destruct (Nat.eqb_spec h x);
          [intros _ _; subst h; split; [reflexivity|tauto]|]
    end.
  intros Ht Hk. destruct (H h t Ht Hk) as [Hg _]. congruence.
Qed.

Lemma only_held_cleared s h t :
  only_held_intervals s ->
  timer_lookup h (clear_handles s) = Some t ->
  is_timeout (action t) = true.
Proof.
  intros H Ht. destruct (is_timeout (action t)) eqn:Hk; [reflexivity|].
  destruct (H h t (clear_handles_Some _ _ _ Ht) Hk) as [_ Hh].
  rewrite (clear_handles_held h s Hh) in Ht. discriminate.
Qed.

Lemma only_held_endGame s :
  only_held_intervals s -> only_held_intervals (exec endGame s).
Proof.
  intros H. rewrite exec_endGame. intros h t. cbn [timers timer_lookup].
  destruct (Nat.eqb h (nextHandle s)).
  - intros [= <-]. discriminate.
  - intros Ht Hk. rewrite (only_held_cleared s h t H Ht) in Hk.
    discriminate.
Qed.

Lemma only_held_step ev e s :
  no_ids_listed e ->
  invariant s ->
  only_held_intervals s -> only_held_intervals (step ev e s).
Proof.
  intros Hno Hinv H. destruct ev as [sid n|sid pos|sid|h']; unfold step;
    cbn [handle].
  - rewrite exec_joinGame. cbv zeta.
    match goal with |- only_held_intervals (set_emitted _ ?s2) =>
      assert (only_held_intervals s2) as H2
    end.
    { cbn [gameInProgress set_players].
      destruct (gameInProgress s) eqn:Eg; cbn [negb andb]; [exact H|].
      case_if; [|exact H].
      apply only_held_startGame; [exact Eg|exact H]. }
    exact H2.
  - rewrite exec_move. destruct (Obj.get sid (players s)); exact H.
  - rewrite exec_disconnect. cbv zeta. case_if; [|exact H].
    intros h t. cbn [timers]. intros Ht Hk.
    rewrite (only_held_cleared s h t H Ht) in Hk. discriminate.
  - rewrite exec_fire.
    destruct (timer_lookup h' (timers s)) as [t'|] eqn:Ht'; [|exact H].
    assert (only_held_intervals
              (if repeating t' then s
               else set_timers (timer_remove h' (timers s)) s)) as H1.
    { destruct (repeating t'); [exact H|].
      intros h t Ht Hk. cbn [timers set_timers] in Ht.
      apply timer_lookup_remove_Some in Ht. exact (H h t Ht Hk). }
    destruct (action t'); cbn [run_callback].
    + rewrite exec_gameLoop. exact H1.
    + rewrite exec_spawnTreasure. case_if; exact H1.
    + rewrite exec_countdown. case_if; [|exact H1].
      apply only_held_endGame. exact H1.
    + rewrite exec_restart. cbv zeta. cbn [players set_players].
      rewrite (filter_no_ids e _ Hno). exact H1.
Qed.

(** On socket.io 3 and later, where no id is ever listed, no interval
    is left scheduled between rounds: while no round is in progress
    every scheduled timer is a restart timeout. *)
Lemma no_ids_no_stray_interval trace :
  Forall (fun step_env => no_ids_listed (snd step_env)) trace ->
  let s := run trace initial in
  gameInProgress s = false ->
  forall h t, timer_lookup h (timers s) = Some t -> action t = cb_restart.
Proof.
  assert (forall s0,
    Forall (fun step_env => no_ids_listed (snd step_env)) trace ->
    invariant s0 -> only_held_intervals s0 ->
    only_held_intervals (run trace s0)) as Hrun.
  { induction trace as [|[ev e] trace IH]; intros s0 Hf Hinv H; [exact H|].
    inversion Hf; subst. cbn. apply IH; auto using invariant_step.
    now apply only_held_step. }
  intros Hf s Hidle h t Ht.
  assert (only_held_intervals s) as H.
  { apply Hrun; auto using invariant_initial. intros h0 t0. discriminate. }
  destruct (action t) eqn:Ea; try reflexivity;
    destruct (H h t Ht) as [Hg _]; try (rewrite Ea; reflexivity);
    congruence.
Qed.

Lemma Forall2_map_right {A B : Type} (R : A -> B -> Prop) (f : A -> B) l :
  (forall x, R x (f x)) -> Forall2 R l (map f l).
Proof. intros H. induction l; cbn; constructor; auto. Qed.

(** ** Properties of the server *)

(** C1 (the code departs from it).  [gameLoop] splices [treasures]
    inside the [forEach] that walks it, so the treasure that follows a
    collected one is not examined for the same player.  With Ann
    alone within reach of two treasures, one tick collects the first
    and leaves the second in the live set although Ann is within the
    collision radius of it.  With Bob at the same place, the second
    treasure goes to Bob although Ann, who is processed first, was
    within reach of it. *)
Theorem gameLoop_skips_treasure_after_collected :
  (let s := run ann_between_two initial in
   let s' := step (on_timer 0) env_apart s in
   gameInProgress s = true /\
   timer_lookup 0 (timers s) = Some (mkTimer cb_gameLoop true 1) /\
   treasures s = [new_treasure env_apart; new_treasure env_beside] /\
   treasures s' = [new_treasure env_beside] /\
   exists ann,
     players s' = [("A"%string, ann)] /\
     Player.score ann = 1 /\
     collides ann (new_treasure env_beside) = true) /\
  (let s := run ann_and_bob_between_two initial in
   let s' := step (on_timer 0) env_apart s in
   gameInProgress s = true /\
   treasures s = [new_treasure env_apart; new_treasure env_beside] /\
   treasures s' = [] /\
   exists ann bob,
     players s = [("A"%string, ann); ("B"%string, bob)] /\
     collides ann (new_treasure env_apart) = true /\
     collides ann (new_treasure env_beside) = true /\
     players s' =
       [("A"%string, Player.with_score 1 ann);
        ("B"%string, Player.with_score 1 bob)]).
Proof.
  split.
  - vm_compute. repeat split. eexists. repeat split.
  - vm_compute. repeat split. do 2 eexists. repeat split.
Qed.

(** C2. When the countdown fires and the remaining time reaches zero,
    the round stops being in progress and one [gameOver] message goes
    to every session.  With no registered player it carries the
    sentinel [No one]; otherwise it carries the name and the score of
    the winner, the player of highest score: every player before the
    winner in property order has a strictly lower score and no player
    after the winner has a higher one, so the first of several equal
    leaders wins.  The earlier revision of the file announces the
    same winner by name. *)
Theorem round_end_announces_winner trace h t e :
  let s := run trace initial in
  timer_lookup h (timers s) = Some t ->
  action t = cb_countdown ->
  gameTimer s - 1 <= 0 ->
  let s' := step (on_timer h) e s in
  gameInProgress s' = false /\
  exists m,
    emitted s' = emitted s ++ [io_emit m] /\
    ((players s = [] /\ m = gameOver "No one" 0) \/
     (exists before w after,
        Obj.values (players s) = before ++ w :: after /\
        Forall (fun p => Player.score p < Player.score w) before /\
        Forall (fun p => Player.score p <= Player.score w) after /\
        m = gameOver (Player.name w) (Player.score w) /\
        gameOver_message_v1 (fst (determineWinner (players s)))
        = Player.name w)).
Proof.
  intros s Ht Hcb Hzero s'.
  pose proof (invariant_reachable trace) as Hinv. fold s in Hinv.
  unfold s'. rewrite (fire_countdown_zero h t e s Hinv Ht Hcb Hzero).
  rewrite exec_endGame.
  cbn [gameInProgress emitted players set_gameTimer].
  split; [reflexivity|].
  exists (gameOver_message (fst (determineWinner (players s)))).
  split; [reflexivity|].
  destruct (determineWinner_spec (players s) (inv_scores _ Hinv))
    as [[E ->]|(b & w & a & E & Hb & Ha & ->)].
  - left. auto.
  - right. exists b. exists w. exists a. repeat split; auto.
Qed.

Lemma round_end_announces_winner_witness :
  let s := run (ann_plays 59) initial in
  let s' := step (on_timer 2) env_apart s in
  gameInProgress s' = false /\
  exists m,
    emitted s' = emitted s ++ [io_emit m] /\
    ((players s = [] /\ m = gameOver "No one" 0) \/
     (exists before w after,
        Obj.values (players s) = before ++ w :: after /\
        Forall (fun p => Player.score p < Player.score w) before /\
        Forall (fun p => Player.score p <= Player.score w) after /\
        m = gameOver (Player.name w) (Player.score w) /\
        gameOver_message_v1 (fst (determineWinner (players s)))
        = Player.name w)).
Proof.
  apply (round_end_announces_winner (ann_plays 59) 2
           (mkTimer cb_countdown true 1) env_apart).
  - vm_compute. reflexivity.
  - reflexivity.
  - vm_compute. discriminate.
Defined.

(** C3 as stated fails: no timer is guarded by a round generation.
    The restart timeout that the first round's [endGame] scheduled is
    still pending in the second round, and its firing is not ignored:
    whatever ids [Object.keys(io.sockets.sockets)] lists, the registry
    of the second round is changed.  With the open sockets listed
    (socket.io 1 and 2) the remaining time goes from 58 back to 60
    and Ann's point is lost; with no id listed (socket.io 3 and
    later) every player is dropped in the middle of the round. *)
Lemma stale_restart_resets_new_round :
  let s := run second_round_running initial in
  timer_lookup 3 (timers s) = Some (mkTimer cb_restart false 1) /\
  rounds s = 2%nat /\
  gameInProgress s = true /\
  gameTimer s = 58 /\
  option_map Player.score (Obj.get "A" (players s)) = Some 1 /\
  (forall e, players (step (on_timer 3) e s) <> players s) /\
  (let s' := step (on_timer 3) env_ids_listed s in
   gameInProgress s' = true /\
   gameTimer s' = 60 /\
   option_map Player.score (Obj.get "A" (players s')) = Some 0) /\
  (let s' := step (on_timer 3) env_no_ids s in
   gameInProgress s' = true /\
   gameTimer s' = 58 /\
   players s' = []).
Proof.
  cbv zeta. split; [vm_compute; reflexivity|].
  split; [vm_compute; reflexivity|]. split; [vm_compute; reflexivity|].
  split; [vm_compute; reflexivity|]. split; [vm_compute; reflexivity|].
  split.
  - intros e.
    eapply (restart_changes_registry second_round_running 3 _ e
              "A"%string).
    + vm_compute. reflexivity.
    + reflexivity.
    + vm_compute. reflexivity.
    + vm_compute. discriminate.
  - split; vm_compute; repeat split.
Qed.

(** C3, amended.  Timers carry no round generation; what keeps a
    finished round quiet is cancellation.  When the countdown reaches
    zero, and when the last player disconnects, the intervals held in
    [gameLoopInterval], [treasureSpawnInterval] and
    [countdownInterval] are cancelled and never fire again.  The
    restart timeout is never cancelled: whatever else happens it
    stays scheduled until it fires, and it fires once. *)
Theorem timers_cancelled_not_guarded :
  (forall trace hc t e h,
     let s := run trace initial in
     timer_lookup hc (timers s) = Some t ->
     action t = cb_countdown ->
     gameTimer s - 1 <= 0 ->
     In (Some h) (handles s) ->
     forall trace' e',
       step (on_timer h) e' (run trace' (step (on_timer hc) e s))
       = run trace' (step (on_timer hc) e s)) /\
  (forall trace sid e h,
     let s := run trace initial in
     Obj.delete sid (players s) = [] ->
     In (Some h) (handles s) ->
     forall trace' e',
       step (on_timer h) e' (run trace' (step (on_disconnect sid) e s))
       = run trace' (step (on_disconnect sid) e s)) /\
  (forall trace h t,
     let s := run trace initial in
     timer_lookup h (timers s) = Some t ->
     action t = cb_restart ->
     (forall trace',
        Forall (fun step_env => fst step_env <> on_timer h) trace' ->
        timer_lookup h (timers (run trace' s)) = Some t) /\
     (forall e trace' e',
        step (on_timer h) e' (run trace' (step (on_timer h) e s))
        = run trace' (step (on_timer h) e s))).
Proof.
  split; [|split].
  - intros trace hc t e h s Ht Hcb Hzero Hh trace' e'.
    apply cancelled_never_fires.
    apply (round_end_cancels h hc t e s); auto.
    apply invariant_reachable.
  - intros trace sid e h s E Hh trace' e'.
    apply cancelled_never_fires.
    apply last_disconnect_cancels; auto.
    apply invariant_reachable.
  - intros trace h t s Ht Hcb.
    pose proof (invariant_reachable trace) as Hinv. fold s in Hinv.
    split.
    + intros trace' Hf.
      apply (waiting_run h t trace' s Hf).
      now apply timeout_waiting.
    + intros e trace' e'. apply cancelled_never_fires.
      apply (restart_fires trace h t e Ht Hcb).
Qed.

Lemma timers_cancelled_not_guarded_witness :
  (step (on_timer 0) env_apart
     (run [] (step (on_timer 2) env_apart (run (ann_plays 59) initial)))
   = run [] (step (on_timer 2) env_apart (run (ann_plays 59) initial))) /\
  (step (on_timer 0) env_apart
     (run [] (step (on_disconnect "A") env_apart (run (ann_plays 0) initial)))
   = run [] (step (on_disconnect "A") env_apart (run (ann_plays 0) initial))) /\
  timer_lookup 3
    (timers (run [(on_joinGame "B" "Bob", env_centre);
                  (on_disconnect "A", env_centre)]
               (run (ann_plays 60) initial)))
  = Some (mkTimer cb_restart false 1) /\
  step (on_timer 3) env_no_ids
    (run [] (step (on_timer 3) env_no_ids (run (ann_plays 60) initial)))
  = run [] (step (on_timer 3) env_no_ids (run (ann_plays 60) initial)).
Proof.
  split; [|split].
  - apply (proj1 timers_cancelled_not_guarded (ann_plays 59) 2%nat
             (mkTimer cb_countdown true 1) env_apart 0%nat).
    + vm_compute. reflexivity.
    + reflexivity.
    + vm_compute. discriminate.
    + vm_compute. left. reflexivity.
  - apply (proj1 (proj2 timers_cancelled_not_guarded) (ann_plays 0)
             "A"%string env_apart 0%nat).
    + vm_compute. reflexivity.
    + vm_compute. left. reflexivity.
  - destruct (proj2 (proj2 timers_cancelled_not_guarded) (ann_plays 60)
                3%nat (mkTimer cb_restart false 1)) as [Hkept Honce].
    + vm_compute. reflexivity.
    + reflexivity.
    + split.
      * apply Hkept. repeat constructor; discriminate.
      * apply Honce.
Defined.

(** C4 as stated fails: the restart timeout that [endGame] scheduled
    is not among the timers that the disconnect handler clears.  Ann
    plays the first round out and leaves during the grace period; the
    timeout is still pending, and when it fires its callback runs. *)
Lemma pending_restart_survives_last_disconnect :
  let s := run (ann_plays 60) initial in
  let s' := step (on_disconnect "A") env_apart s in
  gameInProgress s = false /\
  timer_lookup 3 (timers s) = Some (mkTimer cb_restart false 1) /\
  players s' = [] /\
  timer_lookup 3 (timers s') = Some (mkTimer cb_restart false 1) /\
  step (on_timer 3) env_apart s' <> s'.
Proof.
  vm_compute. repeat split. discriminate.
Qed.

(** C4, amended.  When the disconnect of a socket leaves no player,
    [gameInProgress] is false at once, the treasures are cleared, and
    the tick, spawn and countdown intervals held in the three handle
    variables are cancelled together and never fire afterwards.  A
    pending restart timeout is not cancelled: it stays in the timer
    table. *)
Theorem last_disconnect_stops_round trace sid e :
  let s := run trace initial in
  Obj.delete sid (players s) = [] ->
  let s' := step (on_disconnect sid) e s in
  players s' = [] /\
  gameInProgress s' = false /\
  treasures s' = [] /\
  (forall h,
     In (Some h) (handles s) ->
     forall trace' e',
       step (on_timer h) e' (run trace' s') = run trace' s') /\
  (forall h t,
     timer_lookup h (timers s) = Some t ->
     action t = cb_restart ->
     timer_lookup h (timers s') = Some t).
Proof.
  intros s E s'.
  pose proof (invariant_reachable trace) as Hinv. fold s in Hinv.
  repeat split.
  - unfold s'. rewrite (last_disconnect_state sid e s E). reflexivity.
  - unfold s'. rewrite (last_disconnect_state sid e s E). reflexivity.
  - unfold s'. rewrite (last_disconnect_state sid e s E). reflexivity.
  - intros h Hh trace' e'. apply cancelled_never_fires.
    now apply last_disconnect_cancels.
  - intros h t Ht Hcb. unfold s'.
    rewrite (last_disconnect_state sid e s E). cbn [timers].
    now apply clear_handles_keeps_timeout.
Qed.

Lemma last_disconnect_stops_round_witness :
  let s' :=
    step (on_disconnect "A") env_apart (run (ann_plays 60) initial) in
  players s' = [] /\
  gameInProgress s' = false /\
  treasures s' = [] /\
  step (on_timer 0) env_apart (run [] s') = run [] s' /\
  timer_lookup 3 (timers s') = Some (mkTimer cb_restart false 1).
Proof.
  destruct (last_disconnect_stops_round (ann_plays 60) "A" env_apart)
    as (Hp & Hg & Ht & Hc & Hr).
  - vm_compute. reflexivity.
  - split; [exact Hp|]. split; [exact Hg|]. split; [exact Ht|]. split.
    + apply (Hc 0%nat). vm_compute. left. reflexivity.
    + apply Hr; [vm_compute; reflexivity|reflexivity].
Defined.

(** C5 (the code departs from it).  The code keeps the tick out of
    the time between rounds by cancelling the interval held in
    [gameLoopInterval], and misses the interval of a round whose
    handle a second [startGame] has overwritten.  On socket.io 1 and
    2, where the restart callback is given the ids of the open
    sockets: after the third round has ended no round is in progress,
    the tick interval of the second round is still in the timer table,
    and when it fires Ann collects the treasure, so her score and the
    live set change outside a round. *)
Theorem tick_runs_outside_round :
  let s := run after_third_round initial in
  let s' := step (on_timer 4) env_apart s in
  gameInProgress s = false /\
  timer_lookup 4 (timers s) = Some (mkTimer cb_gameLoop true 2) /\
  treasures s = [new_treasure env_apart] /\
  option_map Player.score (Obj.get "A" (players s)) = Some 0 /\
  s' = exec gameLoop s /\
  gameInProgress s' = false /\
  treasures s' = [] /\
  option_map Player.score (Obj.get "A" (players s')) = Some 1.
Proof.
  vm_compute. repeat split.
Qed.

(** How the tick is stopped otherwise: [gameLoop] itself does the
    same whether or not a round is in progress, and when the
    countdown reaches zero, and when the last player disconnects, the
    interval held in [gameLoopInterval] is cancelled and never fires
    again. *)
Lemma gameLoop_ignores_round_state :
  (forall b s,
     exec gameLoop (set_gameInProgress b s)
     = set_gameInProgress b (exec gameLoop s)) /\
  (forall trace hc t e h,
     let s := run trace initial in
     timer_lookup hc (timers s) = Some t ->
     action t = cb_countdown ->
     gameTimer s - 1 <= 0 ->
     gameLoopInterval s = Some h ->
     forall trace' e',
       step (on_timer h) e' (run trace' (step (on_timer hc) e s))
       = run trace' (step (on_timer hc) e s)) /\
  (forall trace sid e h,
     let s := run trace initial in
     Obj.delete sid (players s) = [] ->
     gameLoopInterval s = Some h ->
     forall trace' e',
       step (on_timer h) e' (run trace' (step (on_disconnect sid) e s))
       = run trace' (step (on_disconnect sid) e s)).
Proof.
  split; [|split].
  - intros b s. rewrite !exec_gameLoop. reflexivity.
  - intros trace hc t e h s Ht Hcb Hzero Hh trace' e'.
    apply cancelled_never_fires.
    apply (round_end_cancels h hc t e s); auto.
    + apply invariant_reachable.
    + left. exact Hh.
  - intros trace sid e h s E Hh trace' e'.
    apply cancelled_never_fires.
    apply last_disconnect_cancels; auto.
    + apply invariant_reachable.
    + left. exact Hh.
Qed.

(** C6. For every state of the registry, the empty one included,
    [getLeaderboard] leaves the state as it is, returns the same rows
    when called again, and its rows are at most five, in descending
    order of score: they are, row by row, the name and the score of
    the first five players of an arrangement of all players that is
    sorted by score and keeps, among players of equal score, the
    order in which they joined. *)
Theorem getLeaderboard_top5 (s : server) :
  let out := fst (runState getLeaderboard s) in
  snd (runState getLeaderboard s) = s /\
  fst (runState getLeaderboard (snd (runState getLeaderboard s))) = out /\
  (List.length out <= 5)%nat /\
  StronglySorted (fun a b => Entry.score b <= Entry.score a) out /\
  (exists ranked,
     Permutation (Obj.values (players s)) ranked /\
     StronglySorted descending ranked /\
     (forall v, filter (has_score v) ranked =
                filter (has_score v) (Obj.values (players s))) /\
     out = map entry_of (firstn 5 ranked) /\
     Forall2
       (fun p row =>
          Entry.name row = Player.name p /\
          Entry.score row = Player.score p)
       (firstn 5 ranked) out) /\
  fst (runState getLeaderboard (set_players [] s)) = [].
Proof.
  rewrite !exec_getLeaderboard. cbn [fst snd]. repeat split.
  - unfold leaderboard_of, slice0. rewrite length_map. apply firstn_le_length.
  - unfold leaderboard_of, slice0.
    apply (StronglySorted_map descending); [auto|].
    apply StronglySorted_firstn, sort_sorted.
  - exists (sort compare_score (Obj.values (players s))).
    split; [apply sort_perm|]. split; [apply sort_sorted|].
    split; [intros v; apply sort_stable|]. split; [reflexivity|].
    unfold leaderboard_of, slice0. apply Forall2_map_right.
    intros p. split; reflexivity.
Qed.

(** C7. The number of live treasures never exceeds 20: it is at most
    20 in every reachable state; [spawnTreasure] changes nothing when
    there are already 20; and the tick, the round start, the
    disconnect handler and every other event keep a population of at
    most 20 within that bound. *)
Theorem treasure_cap :
  (forall trace,
     (List.length (treasures (run trace initial)) <= 20)%nat) /\
  (forall e s,
     List.length (treasures s) = 20%nat -> exec (spawnTreasure e) s = s) /\
  (forall s,
     (List.length (treasures s) <= 20)%nat ->
     (List.length (treasures (exec gameLoop s)) <= 20)%nat) /\
  (forall e s,
     (List.length (treasures (exec (startGame e) s)) <= 20)%nat) /\
  (forall sid s,
     (List.length (treasures s) <= 20)%nat ->
     (List.length (treasures (exec (disconnect sid) s)) <= 20)%nat) /\
  (forall ev e s,
     (List.length (treasures s) <= 20)%nat ->
     (List.length (treasures (step ev e s)) <= 20)%nat).
Proof.
  repeat split.
  - intros trace. apply (inv_cap _ (invariant_reachable trace)).
  - intros e s H. rewrite exec_spawnTreasure, H. reflexivity.
  - intros s H. rewrite exec_gameLoop. cbn.
    etransitivity; [apply collisions_length|assumption].
  - intros e s. rewrite exec_startGame. cbn. lia.
  - intros sid s H. rewrite exec_disconnect. cbv zeta.
    case_if; [cbn; lia|exact H].
  - intros ev e s H. apply (cap_step ev e s H).
Qed.

Lemma treasure_cap_witness :
  (exec (spawnTreasure env_centre)
     (set_treasures (repeat (new_treasure env_centre) 20) initial)
   = set_treasures (repeat (new_treasure env_centre) 20) initial) /\
  (List.length (treasures (exec gameLoop initial)) <= 20)%nat /\
  (List.length (treasures (exec (disconnect "A") initial)) <= 20)%nat /\
  (List.length (treasures (step (on_timer 0) env_centre initial)) <= 20)%nat.
Proof.
  split; [|split; [|split]].
  - apply (proj1 (proj2 treasure_cap)). reflexivity.
  - apply (proj1 (proj2 (proj2 treasure_cap))). cbn. lia.
  - apply (proj1 (proj2 (proj2 (proj2 (proj2 treasure_cap))))). cbn. lia.
  - apply (proj2 (proj2 (proj2 (proj2 (proj2 treasure_cap))))). cbn. lia.
Defined.

(** C8 as stated fails: a second [joinGame] from the same socket in
    the middle of a round replaces the record, and the score drops
    from 1 to 0 although no round has started. *)
Lemma rejoin_resets_score :
  let s := run ann_scores initial in
  let s' := step (on_joinGame "A" "Ann") env_centre s in
  exists ann ann',
    Obj.get "A" (players s) = Some ann /\
    Obj.get "A" (players s') = Some ann' /\
    Player.score ann = 1 /\
    Player.score ann' = 0 /\
    gameInProgress s = true /\
    gameInProgress s' = true /\
    rounds s' = rounds s.
Proof. vm_compute. do 2 eexists. repeat split. Qed.

(** C8, amended.  In every reachable state and for every event, the
    score of a player who is registered before and after the event
    does not decrease, unless the event starts a round or is a
    [joinGame] from that player's own socket, and then the score is
    0.  Right after [startGame], and after every event that starts a
    round, every score is exactly 0. *)
Theorem score_monotone_within_round :
  (forall trace ev e sid p p',
     let s := run trace initial in
     let s' := step ev e s in
     Obj.get sid (players s) = Some p ->
     Obj.get sid (players s') = Some p' ->
     Player.score p <= Player.score p' \/
     Player.score p' = 0 /\
     (rounds s' = S (rounds s) \/
      exists playerName, ev = on_joinGame sid playerName)) /\
  (forall e s, zero_scores (players (exec (startGame e) s))) /\
  (forall ev e s,
     rounds (step ev e s) <> rounds s -> zero_scores (players (step ev e s))).
Proof.
  split; [|split].
  - intros trace ev e sid p p' s s' G G'.
    pose proof (inv_keys _ (invariant_reachable trace)) as Hnd. fold s in Hnd.
    unfold s' in *. destruct ev; unfold step in *; cbn [handle] in *.
    + destruct (score_step_joinGame _ _ _ _ _ _ _ G G')
        as [H|[H0 [H|<-]]]; eauto.
    + left. eapply score_step_move; eauto.
    + left. eapply score_step_disconnect; eauto.
    + destruct (score_step_fire _ _ _ _ _ _ G G') as [H|[H0 H]]; auto.
  - intros e s. rewrite startGame_players. apply zero_scores_reset.
  - apply round_start_zeroes.
Qed.

Lemma score_monotone_within_round_witness :
  (Player.score (new_player "A" "Ann" env_centre)
   <= Player.score (Player.with_score 1 (new_player "A" "Ann" env_centre)) \/
   Player.score (Player.with_score 1 (new_player "A" "Ann" env_centre)) = 0 /\
   (rounds (step (on_timer 0) env_centre
              (run [(on_joinGame "A" "Ann", env_centre)] initial))
    = S (rounds (run [(on_joinGame "A" "Ann", env_centre)] initial)) \/
    exists playerName, on_timer 0 = on_joinGame "A" playerName)) /\
  zero_scores
    (players (step (on_joinGame "A" "Ann") env_centre initial)).
Proof.
  split.
  - apply (proj1 score_monotone_within_round
             [(on_joinGame "A" "Ann", env_centre)] (on_timer 0) env_centre
             "A"%string).
    + vm_compute. reflexivity.
    + vm_compute. reflexivity.
  - apply (proj2 (proj2 score_monotone_within_round)).
    vm_compute. discriminate.
Defined.

(** C9. A [joinGame] that arrives while no round is in progress starts
    one: the round is in progress, the remaining time is exactly 60,
    every player's score is zero, and the treasures are exactly the
    one that [startGame] spawns. *)
Theorem first_join_starts_round sid playerName e s :
  gameInProgress s = false ->
  let s' := step (on_joinGame sid playerName) e s in
  gameInProgress s' = true /\
  gameTimer s' = 60 /\
  treasures s' = [new_treasure e] /\
  List.length (treasures s') = 1%nat /\
  zero_scores (players s') /\
  Obj.keys (players s') =
    Obj.keys (Obj.set sid (new_player sid playerName e) (players s)) /\
  rounds s' = S (rounds s).
Proof.
  intros Hidle. unfold step. cbn [handle]. rewrite exec_joinGame. cbv zeta.
  cbn [gameInProgress set_players players]. rewrite Hidle.
  assert ((0 <? List.length
             (Obj.keys (Obj.set sid (new_player sid playerName e) (players s))))%nat
          = true) as ->.
  { destruct (players s) as [|[k v] ps]; cbn; [reflexivity|].
    destruct (String.eqb sid k); reflexivity. }
  cbn [negb andb]. rewrite exec_startGame. cbn.
  repeat split; auto.
  - apply zero_scores_reset.
  - rewrite map_map. reflexivity.
Qed.

Lemma first_join_starts_round_witness :
  let s' := step (on_joinGame "A" "Ann") env_centre initial in
  gameInProgress s' = true /\
  gameTimer s' = 60 /\
  treasures s' = [new_treasure env_centre] /\
  List.length (treasures s') = 1%nat /\
  zero_scores (players s') /\
  Obj.keys (players s') =
    Obj.keys (Obj.set "A" (new_player "A" "Ann" env_centre) (players initial)) /\
  rounds s' = S (rounds initial).
Proof.
  apply (first_join_starts_round "A" "Ann" env_centre initial). reflexivity.
Defined.

(** C10. Whenever a round ends with at least one registered player,
    the winner that [endGame] announces is one of the registered
    players, not the [No one] branch: this is the message sent when
    the countdown reaches zero.  Scores are never negative, so a score
    of 0 beats the initial high score of -1, and when every score is 0
    the first player wins.  The earlier revision of the file
    announces the same player by name alone. *)
Theorem winner_is_registered_player trace :
  let s := run trace initial in
  players s <> [] ->
  exists k w,
    In (k, w) (players s) /\
    fst (determineWinner (players s)) = Some w /\
    emitted (exec endGame s) =
      emitted s ++ [io_emit (gameOver (Player.name w) (Player.score w))] /\
    (forall h t e,
       timer_lookup h (timers s) = Some t ->
       action t = cb_countdown ->
       gameTimer s - 1 <= 0 ->
       emitted (step (on_timer h) e s) =
         emitted s ++ [io_emit (gameOver (Player.name w) (Player.score w))]) /\
    gameOver_message_v1 (fst (determineWinner (players s))) = Player.name w /\
    (zero_scores (players s) -> hd_error (Obj.values (players s)) = Some w).
Proof.
  intros s Hne.
  pose proof (invariant_reachable trace) as Hinv. fold s in Hinv.
  destruct (determineWinner_spec (players s) (inv_scores _ Hinv))
    as [[E _]|(b & w & a & E & Hb & Ha & Hw)]; [contradiction|].
  destruct (values_In (players s) w) as [k Hk].
  { rewrite E. apply in_or_app. right. now left. }
  exists k. exists w. split; [exact Hk|]. split; [exact Hw|].
  split; [rewrite exec_endGame; cbn [emitted]; rewrite Hw; reflexivity|].
  split.
  { intros h t e Ht Hcb Hzero.
    rewrite (fire_countdown_zero h t e s Hinv Ht Hcb Hzero), exec_endGame.
    cbn [emitted players set_gameTimer]. rewrite Hw. reflexivity. }
  split; [rewrite Hw; reflexivity|].
  intros Hzero. rewrite E. destruct b as [|p b]; [reflexivity|].
  exfalso. inversion Hb as [|? ? Hp _]; subst.
  assert (In p (Obj.values (players s))) as Hin by (rewrite E; now left).
  assert (In w (Obj.values (players s))) as Hin'
    by (rewrite E; apply in_or_app; right; now left).
  unfold Obj.values in Hin, Hin'. unfold zero_scores in Hzero.
  rewrite Forall_forall in Hzero.
  apply in_map_iff in Hin as [kv [<- Hin]].
  apply in_map_iff in Hin' as [kv' [<- Hin']].
  rewrite (Hzero _ Hin), (Hzero _ Hin') in Hp. lia.
Qed.

Lemma winner_is_registered_player_witness :
  exists k w,
    In (k, w) (players (run (ann_plays 59) initial)) /\
    emitted (step (on_timer 2) env_apart (run (ann_plays 59) initial)) =
      emitted (run (ann_plays 59) initial)
      ++ [io_emit (gameOver (Player.name w) (Player.score w))].
Proof.
  destruct (winner_is_registered_player (ann_plays 59))
    as (k & w & Hin & _ & _ & Hstep & _).
  - vm_compute. discriminate.
  - exists k. exists w. split; [exact Hin|].
    apply (Hstep 2%nat (mkTimer cb_countdown true 1) env_apart).
    + vm_compute. reflexivity.
    + reflexivity.
    + vm_compute. discriminate.
Defined.

(** ** Further properties: the registry *)

Lemma set_players_same s : set_players (players s) s = s.
Proof. now destruct s. Qed.

Lemma get_None_not_key {A : Type} k (o : list (string * A)) :
  Obj.get k o = None -> ~ In k (Obj.keys o).
Proof.
  induction o as [|[k' v'] o IH]; cbn; auto.
  destruct (String.eqb_spec k k') as [->|N]; [discriminate|].
  intros H [E|Hin]; [congruence|]. now apply IH.
Qed.

Lemma delete_absent {A : Type} k (o : list (string * A)) :
  Obj.get k o = None -> Obj.delete k o = o.
Proof.
  induction o as [|[k' v'] o IH]; cbn; auto.
  destruct (String.eqb k k'); [discriminate|].
  intros H. now rewrite IH.
Qed.

Lemma keys_set_present {A : Type} k (v w : A) o :
  Obj.get k o = Some w -> Obj.keys (Obj.set k v o) = Obj.keys o.
Proof.
  induction o as [|[k' v'] o IH]; cbn; [discriminate|].
  destruct (String.eqb_spec k k') as [->|N]; cbn; [reflexivity|].
  intros H. f_equal. now apply IH.
Qed.

Lemma delete_set_fresh {A : Type} k (v : A) o :
  Obj.get k o = None -> Obj.delete k (Obj.set k v o) = o.
Proof.
  induction o as [|[k' v'] o IH]; cbn.
  - now rewrite String.eqb_refl.
  - destruct (String.eqb k k') eqn:E; [discriminate|].
    cbn. rewrite E. intros H. now rewrite IH.
Qed.

(** X1. A [move] from a socket that has no player changes nothing;
    in particular a [move] that arrives after the socket's
    [disconnect] is dropped, in every reachable state. *)
Theorem late_move_is_dropped :
  (forall sid position e s,
     Obj.get sid (players s) = None ->
     step (on_move sid position) e s = s) /\
  (forall trace sid position e e',
     let s := step (on_disconnect sid) e (run trace initial) in
     step (on_move sid position) e' s = s).
Proof.
  assert (Hmove : forall sid position e s,
    Obj.get sid (players s) = None -> step (on_move sid position) e s = s).
  { intros sid position e s H. unfold step. cbn [handle].
    rewrite exec_move, H. reflexivity. }
  split; [exact Hmove|].
  intros trace sid position e e' s. apply Hmove. unfold s, step.
  cbn [handle]. rewrite exec_disconnect. cbv zeta.
  pose proof (inv_keys _ (invariant_reachable trace)) as Hnd.
  case_if; cbn [players set_players]; now apply get_delete_same.
Qed.

Lemma late_move_is_dropped_witness :
  step (on_move "B" at_treasure) env_apart (run (ann_plays 0) initial)
  = run (ann_plays 0) initial.
Proof.
  apply (proj1 late_move_is_dropped). vm_compute. reflexivity.
Defined.

(** X2. A [move] from a registered socket replaces the three
    coordinates of that player by the ones received, whatever they
    are, and nothing else: id, name and score of the player, the
    other players, the order of the registry and the rest of the
    state are unchanged, and no message is sent. *)
Theorem move_updates_only_position sid position e s p :
  Obj.get sid (players s) = Some p ->
  let s' := step (on_move sid position) e s in
  Obj.get sid (players s') =
    Some (Player.mk (Player.id p) (Player.name p) (Position.x position)
            (Position.y position) (Position.z position) (Player.score p)) /\
  (forall sid', sid' <> sid ->
     Obj.get sid' (players s') = Obj.get sid' (players s)) /\
  Obj.keys (players s') = Obj.keys (players s) /\
  s' = set_players (players s') s.
Proof.
  intros G s'. unfold s', step. cbn [handle]. rewrite exec_move, G.
  cbn [players set_players]. repeat split.
  - apply get_set_same.
  - intros sid' N. now apply get_set_other.
  - eapply keys_set_present; eauto.
Qed.

Lemma move_updates_only_position_witness :
  Obj.get "A"
    (players (step (on_move "A" at_treasure) env_apart
                (run (ann_plays 0) initial)))
  = Some (Player.mk "A" "Ann" 10 (1 # 2) 10 0).
Proof.
  destruct (move_updates_only_position "A" at_treasure env_apart
              (run (ann_plays 0) initial) (new_player "A" "Ann" env_apart))
    as [H _].
  - vm_compute. reflexivity.
  - exact H.
Defined.

(** X3. When a socket disconnects and players remain, only the
    registry changes: the socket's player is gone, every other player
    is as before and the round, its timers and its treasures go on.
    If the socket had no player, nothing changes at all. *)
Theorem disconnect_keeps_round_running trace sid e :
  let s := run trace initial in
  Obj.delete sid (players s) <> [] ->
  let s' := step (on_disconnect sid) e s in
  s' = set_players (Obj.delete sid (players s)) s /\
  Obj.get sid (players s') = None /\
  (forall sid', sid' <> sid ->
     Obj.get sid' (players s') = Obj.get sid' (players s)) /\
  (Obj.get sid (players s) = None -> s' = s).
Proof.
  intros s Hne s'.
  pose proof (inv_keys _ (invariant_reachable trace)) as Hnd. fold s in Hnd.
  assert (s' = set_players (Obj.delete sid (players s)) s) as E.
  { unfold s', step. cbn [handle]. rewrite exec_disconnect. cbv zeta.
    destruct (Obj.delete sid (players s)); [contradiction|reflexivity]. }
  rewrite E. cbn [players set_players]. repeat split.
  - now apply get_delete_same.
  - intros sid' N. now apply get_delete_other.
  - intros G. rewrite (delete_absent _ _ G). apply set_players_same.
Qed.

Lemma disconnect_keeps_round_running_witness :
  Obj.get "B"
    (players (step (on_disconnect "B") env_apart
                (run ann_and_bob_between_two initial)))
  = None.
Proof.
  destruct (disconnect_keeps_round_running ann_and_bob_between_two "B"
              env_apart) as (_ & H & _).
  - vm_compute. discriminate.
  - exact H.
Defined.

(** X4. A [joinGame] that arrives while a round is in progress does
    not disturb the round: remaining time, treasures, timers and the
    records of the other players are unchanged and no round is
    started.  The socket's record is the fresh one, with score 0, and
    exactly one message is sent, a [gameJoined] to the joining socket
    that carries the state after the join. *)
Theorem join_during_round sid playerName e s :
  gameInProgress s = true ->
  let s' := step (on_joinGame sid playerName) e s in
  let ps := Obj.set sid (new_player sid playerName e) (players s) in
  s' = set_emitted
         (emitted s ++
            [socket_emit sid
               (gameJoined sid ps (treasures s) (gameTimer s)
                  (leaderboard_of ps))])
         (set_players ps s) /\
  Obj.get sid (players s') = Some (new_player sid playerName e) /\
  (forall sid', sid' <> sid ->
     Obj.get sid' (players s') = Obj.get sid' (players s)).
Proof.
  intros Hrun s' ps.
  assert (s' = set_emitted
                 (emitted s ++
                    [socket_emit sid
                       (gameJoined sid ps (treasures s) (gameTimer s)
                          (leaderboard_of ps))])
                 (set_players ps s)) as E.
  { unfold s', step. cbn [handle]. rewrite exec_joinGame. cbv zeta.
    cbn [gameInProgress set_players]. rewrite Hrun. reflexivity. }
  rewrite E. cbn [players set_players set_emitted]. repeat split.
  - apply get_set_same.
  - intros sid' N. now apply get_set_other.
Qed.

Lemma join_during_round_witness :
  Obj.get "B"
    (players (step (on_joinGame "B" "Bob") env_apart
                (run (ann_plays 0) initial)))
  = Some (new_player "B" "Bob" env_apart).
Proof.
  destruct (join_during_round "B" "Bob" env_apart (run (ann_plays 0) initial))
    as (_ & H & _).
  - vm_compute. reflexivity.
  - exact H.
Defined.

(** X5. Joining a round in progress and disconnecting again, while
    other players are registered, leaves the server as it was except
    for the [gameJoined] message that was sent. *)
Theorem join_then_disconnect sid playerName e e' s :
  gameInProgress s = true ->
  Obj.get sid (players s) = None ->
  players s <> [] ->
  step (on_disconnect sid) e' (step (on_joinGame sid playerName) e s)
  = set_emitted (emitted (step (on_joinGame sid playerName) e s)) s.
Proof.
  intros Hrun G Hne.
  destruct (join_during_round sid playerName e s Hrun) as (-> & _ & _).
  unfold step at 1. cbn [handle]. rewrite exec_disconnect. cbv zeta.
  cbn [players set_players set_emitted].
  rewrite (delete_set_fresh _ _ _ G).
  destruct (players s) as [|kv ps] eqn:Eps; [contradiction|].
  cbn [Obj.keys map List.length Nat.eqb].
  destruct s. cbn in *. now subst.
Qed.

Lemma join_then_disconnect_witness :
  step (on_disconnect "B") env_apart
    (step (on_joinGame "B" "Bob") env_apart (run (ann_plays 0) initial))
  = set_emitted
      (emitted (step (on_joinGame "B" "Bob") env_apart
                  (run (ann_plays 0) initial)))
      (run (ann_plays 0) initial).
Proof.
  apply (join_then_disconnect "B" "Bob" env_apart env_apart
           (run (ann_plays 0) initial)).
  - vm_compute. reflexivity.
  - vm_compute. reflexivity.
  - vm_compute. discriminate.
Defined.

(** ** Further properties: the tick *)

Lemma splice1_keeps {A : Type} (i : nat) (a : list A) (v w : A) :
  In v a -> nth_error a i = Some w -> v <> w -> In v (splice1 i a).
Proof.
  revert i; induction a as [|u a IH]; intros [|i]; cbn; try tauto.
  - intros [->|H] [= ->] N; [contradiction|assumption].
  - intros [->|H] E N; [now left|right; eauto].
Qed.

Lemma forEach_treasure_keeps todo index player ts t :
  In t ts -> collides player t = false ->
  In t (snd (forEach_treasure todo index player ts)).
Proof.
  revert index player ts.
  induction todo as [|todo IH]; intros index player ts Hin Hc; cbn; auto.
  destruct (nth_error ts index) as [t'|] eqn:E; auto.
  destruct (collides player t') eqn:C; auto.
  apply IH; [|exact Hc].
  apply (splice1_keeps _ _ _ t'); auto. congruence.
Qed.

Lemma forEach_treasure_none todo index player ts :
  (forall t, In t ts -> collides player t = false) ->
  forEach_treasure todo index player ts = (player, ts).
Proof.
  revert index. induction todo as [|todo IH]; intros index H; cbn; auto.
  destruct (nth_error ts index) as [t|] eqn:E; auto.
  rewrite (H t (nth_error_In _ _ E)). auto.
Qed.

(** The first treasure within reach is always visited. *)
Lemma forEach_treasure_hit todo index player ts i t :
  (index <= i < index + todo)%nat ->
  nth_error ts i = Some t ->
  collides player t = true ->
  (List.length (snd (forEach_treasure todo index player ts))
   < List.length ts)%nat.
Proof.
  revert index. induction todo as [|todo IH]; intros index Hi E C; [lia|].
  cbn. destruct (nth_error ts index) as [t0|] eqn:E0.
  - destruct (collides player t0) eqn:C0.
    + pose proof (forEach_treasure_length todo (S index)
                    (Player.with_score (Player.score player + 1) player)
                    (splice1 index ts)).
      pose proof (splice1_hit _ _ _ E0). lia.
    + apply IH; auto.
      assert (i <> index) by (intros ->; congruence). lia.
  - apply nth_error_None in E0.
    assert (nth_error ts i <> None) as H by congruence.
    apply nth_error_Some in H. lia.
Qed.

Lemma forEach_treasure_progress player ts :
  existsb (collides player) ts = true ->
  (List.length (snd (forEach_treasure (List.length ts) 0 player ts))
   < List.length ts)%nat.
Proof.
  intros H. apply existsb_exists in H as (t & Hin & C).
  apply In_nth_error in Hin as [i E].
  apply (forEach_treasure_hit _ _ _ _ i t); auto.
  assert (nth_error ts i <> None) as H by congruence.
  apply nth_error_Some in H. lia.
Qed.

Lemma collisions_keeps ps ts t :
  In t ts -> in_reach ps t = false -> In t (snd (collisions ps ts)).
Proof.
  revert ts. induction ps as [|[k p] ps IH]; intros ts Hin Hr; [exact Hin|].
  rewrite collisions_cons. cbn [snd]. cbn in Hr.
  apply orb_false_iff in Hr as [Hp Hr].
  apply IH; [|exact Hr]. now apply forEach_treasure_keeps.
Qed.

Lemma collisions_none ps ts :
  (forall t, In t ts -> in_reach ps t = false) ->
  collisions ps ts = (ps, ts).
Proof.
  revert ts. induction ps as [|[k p] ps IH]; intros ts H; [reflexivity|].
  rewrite collisions_cons. cbv zeta.
  rewrite forEach_treasure_none.
  - cbn [fst snd]. rewrite IH; [reflexivity|].
    intros t Hin. specialize (H t Hin). cbn in H.
    now apply orb_false_iff in H.
  - intros t Hin. specialize (H t Hin). cbn in H.
    now apply orb_false_iff in H.
Qed.

Lemma collisions_progress ps ts t :
  In t ts -> in_reach ps t = true ->
  (List.length (snd (collisions ps ts)) < List.length ts)%nat.
Proof.
  revert ts. induction ps as [|[k p] ps IH]; intros ts Hin Hr;
    [discriminate|].
  rewrite collisions_cons. cbn [snd].
  destruct (existsb (collides p) ts) eqn:Ex.
  - pose proof (forEach_treasure_progress p ts Ex).
    pose proof (collisions_length ps
                  (snd (forEach_treasure (List.length ts) 0 p ts))). lia.
  - assert (forall t', In t' ts -> collides p t' = false) as Hnone.
    { intros t' Hin'. destruct (collides p t') eqn:C; [|reflexivity].
      assert (existsb (collides p) ts = true)
        by (apply existsb_exists; eauto). congruence. }
    rewrite forEach_treasure_none by assumption. cbn [snd].
    apply IH; [exact Hin|]. cbn in Hr. rewrite (Hnone t Hin) in Hr.
    exact Hr.
Qed.

(** The players after the loop are the players before it, in the same
    order, with scores that did not decrease. *)
Lemma collisions_players ps ts :
  Forall2
    (fun kv kv' =>
       fst kv' = fst kv /\
       snd kv' = Player.with_score (Player.score (snd kv')) (snd kv) /\
       Player.score (snd kv) <= Player.score (snd kv'))
    ps (fst (collisions ps ts)).
Proof.
  revert ts. induction ps as [|[k p] ps IH]; intros ts; [constructor|].
  rewrite collisions_cons. cbn [fst]. constructor; [|apply IH].
  cbn [fst snd]. split; [reflexivity|]. split.
  - apply forEach_treasure_fields.
  - apply forEach_treasure_mono.
Qed.

(** X6. A tick changes scores and the live treasures and nothing
    else: the players are the same, in the same order, each with the
    same id, name and position and a score that is not lower; the
    remaining time, the timers and the round flag are untouched.  It
    sends one message, to every session, and that message carries the
    players, the treasures, the remaining time and the leaderboard as
    they are after the tick. *)
Theorem tick_changes_scores_only s :
  let s' := exec gameLoop s in
  Forall2
    (fun kv kv' =>
       fst kv' = fst kv /\
       snd kv' = Player.with_score (Player.score (snd kv')) (snd kv) /\
       Player.score (snd kv) <= Player.score (snd kv'))
    (players s) (players s') /\
  gameTimer s' = gameTimer s /\
  timers s' = timers s /\
  gameInProgress s' = gameInProgress s /\
  emitted s' =
    emitted s ++
      [io_emit (gameState (players s') (treasures s') (gameTimer s')
                  (leaderboard_of (players s')))].
Proof.
  cbv zeta. rewrite exec_gameLoop. cbn. repeat split.
  apply collisions_players.
Qed.

(** X7. A tick never takes a treasure that no player is within the
    collision radius of, and when no live treasure is within reach of
    any player it changes neither the players nor the treasures. *)
Theorem tick_spares_out_of_reach s :
  (forall t,
     In t (treasures s) -> in_reach (players s) t = false ->
     In t (treasures (exec gameLoop s))) /\
  ((forall t, In t (treasures s) -> in_reach (players s) t = false) ->
   players (exec gameLoop s) = players s /\
   treasures (exec gameLoop s) = treasures s).
Proof.
  rewrite exec_gameLoop. cbn [players treasures]. split.
  - intros t. apply collisions_keeps.
  - intros H. rewrite (collisions_none _ _ H). split; reflexivity.
Qed.

Lemma tick_spares_out_of_reach_witness :
  In (new_treasure env_apart)
    (treasures (exec gameLoop (run (ann_plays 0) initial))) /\
  players (exec gameLoop (run (ann_plays 0) initial))
  = players (run (ann_plays 0) initial).
Proof.
  split.
  - apply (proj1 (tick_spares_out_of_reach (run (ann_plays 0) initial))).
    + vm_compute. left. reflexivity.
    + vm_compute. reflexivity.
  - apply (proj2 (tick_spares_out_of_reach (run (ann_plays 0) initial))).
    vm_compute. intros t [<-|[]]. reflexivity.
Defined.

(** X8. When some player is within the collision radius of some live
    treasure, the tick collects at least one treasure: the live set
    gets smaller and the sum of the scores grows. *)
Theorem tick_collects_something s t :
  In t (treasures s) ->
  in_reach (players s) t = true ->
  (List.length (treasures (exec gameLoop s)) < List.length (treasures s))%nat /\
  total_score (players s) < total_score (players (exec gameLoop s)).
Proof.
  intros Hin Hr. pose proof (collisions_progress _ _ _ Hin Hr) as Hlt.
  pose proof (collisions_total (players s) (treasures s)) as Htot.
  rewrite exec_gameLoop. cbn [players treasures]. split; [exact Hlt|lia].
Qed.

Lemma tick_collects_something_witness :
  (List.length
     (treasures (exec gameLoop (run ann_between_two initial)))
   < List.length (treasures (run ann_between_two initial)))%nat /\
  total_score (players (run ann_between_two initial))
  < total_score (players (exec gameLoop (run ann_between_two initial))).
Proof.
  apply (tick_collects_something (run ann_between_two initial)
           (new_treasure env_beside)).
  - vm_compute. right. left. reflexivity.
  - vm_compute. reflexivity.
Defined.

(** ** Further properties: the round *)

Lemma fallback_name_nonempty playerName e :
  fallback_name playerName e <> EmptyString.
Proof.
  unfold fallback_name.
  destruct (String.eqb_spec playerName EmptyString); [|assumption].
  cbn. discriminate.
Qed.

Lemma Forall_set {A : Type} (P : string * A -> Prop) k v o :
  Forall P o -> P (k, v) -> Forall P (Obj.set k v o).
Proof.
  intros H Hv. induction o as [|[k' v'] o IH]; cbn.
  - repeat constructor. exact Hv.
  - inversion H; subst. destruct (String.eqb k k'); constructor; auto.
Qed.

Lemma Forall_delete {A : Type} (P : string * A -> Prop) k o :
  Forall P o -> Forall P (Obj.delete k o).
Proof.
  induction o as [|[k' v'] o IH]; cbn; intros H; auto.
  inversion H; subst. destruct (String.eqb k k'); auto.
Qed.

Lemma Forall_filter_keep {A : Type} (P : A -> Prop) f (l : list A) :
  Forall P l -> Forall P (filter f l).
Proof.
  rewrite !Forall_forall. intros H x Hin.
  apply filter_In in Hin as [Hin _]. auto.
Qed.

Lemma entries_reset ps :
  Forall well_formed_entry ps ->
  Forall well_formed_entry (Obj.update_all (Player.with_score 0) ps).
Proof.
  unfold Obj.update_all. induction 1 as [|[k p] ps Hp _ IH]; cbn;
    constructor; auto.
Qed.

Lemma entries_collisions ps ts :
  Forall well_formed_entry ps ->
  Forall well_formed_entry (fst (collisions ps ts)).
Proof.
  intros H. pose proof (collisions_players ps ts) as H2.
  induction H2 as [|[k p] [k' p'] ps ps' (Hk & Hp & _) _ IH];
    [constructor|].
  inversion H as [|? ? [Hid Hname] Hrest]; subst.
  constructor; [|now apply IH].
  cbn in *. subst k'. rewrite Hp. split; assumption.
Qed.

Lemma keys_nonempty_set {A : Type} k (v : A) o :
  (0 <? List.length (Obj.keys (Obj.set k v o)))%nat = true.
Proof.
  destruct o as [|[k' v'] o]; cbn; [reflexivity|].
  destruct (String.eqb k k'); reflexivity.
Qed.

Lemma round_invariant_initial : round_invariant initial.
Proof.
  constructor; cbn; try discriminate; try lia.
  - intros H. now elim H.
  - constructor.
  - constructor.
Qed.

(** A change that leaves the round flag, the remaining time, the
    handles, the timers and the round counter alone. *)
Lemma round_invariant_frame s s' :
  round_invariant s ->
  gameInProgress s' = gameInProgress s ->
  gameTimer s' = gameTimer s ->
  handles s' = handles s ->
  timers s' = timers s ->
  rounds s' = rounds s ->
  (players s' <> [] -> gameInProgress s = true \/ players s <> []) ->
  Forall well_formed_entry (players s') ->
  Forall well_addressed (emitted s') ->
  round_invariant s'.
Proof.
  intros [] Eg Et Eh Etb Er Hp Hwf Hlog.
  unfold handles in Eh. injection Eh as E1 E2 E3.
  unfold restart_pending, scheduled in *.
  constructor; unfold restart_pending, scheduled;
    rewrite ?Eg, ?Et, ?E1, ?E2, ?E3, ?Etb, ?Er; auto.
  intros Hne. destruct (Hp Hne); auto.
Qed.

Lemma round_invariant_emit m s :
  round_invariant s -> well_addressed m ->
  round_invariant (set_emitted (emitted s ++ [m]) s).
Proof.
  intros H Hm. apply (round_invariant_frame s); auto; try apply H.
  cbn. apply Forall_app. split; [apply H|]. now constructor.
Qed.

Lemma round_invariant_spawnTreasure e s :
  round_invariant s -> round_invariant (exec (spawnTreasure e) s).
Proof.
  intros H. rewrite exec_spawnTreasure. case_if; [exact H|].
  apply (round_invariant_frame s); auto; apply H.
Qed.

Lemma round_invariant_startGame e s :
  Forall well_formed_entry (players s) ->
  Forall well_addressed (emitted s) ->
  round_invariant (exec (startGame e) s).
Proof.
  intros Hwf Hlog. rewrite exec_startGame.
  constructor; unfold scheduled; cbn; auto.
  - intros _. repeat split; eexists; (split; [reflexivity|]); cbn;
      repeat match goal with
        | |- context [Nat.eqb ?a ?x] =>
            destruct (Nat.eqb_spec a x); try lia
        end; reflexivity.
  - lia.
  - intros _. lia.
  - now apply entries_reset.
Qed.

Lemma round_invariant_endGame s :
  gameTimer s <= 60 ->
  Forall well_formed_entry (players s) ->
  Forall well_addressed (emitted s) ->
  round_invariant (exec endGame s).
Proof.
  intros Ht Hwf Hlog. rewrite exec_endGame.
  constructor; cbn [gameInProgress gameTimer players emitted timers];
    auto; try discriminate.
  - intros _. right. exists (nextHandle s).
    exists (mkTimer cb_restart false (rounds s)). cbn.
    rewrite Nat.eqb_refl. split; reflexivity.
  - apply Forall_app. split; [exact Hlog|]. constructor; [|constructor].
    unfold gameOver_message.
    destruct (fst (determineWinner (players s))); exact I.
Qed.

Lemma round_invariant_countdown s :
  round_invariant s -> round_invariant (exec countdown s).
Proof.
  intros H. rewrite exec_countdown.
  destruct (Z.leb_spec (gameTimer s - 1) 0).
  - apply round_invariant_endGame; cbn; try apply H.
    pose proof (ri_time_max _ H). lia.
  - destruct H. unfold restart_pending, scheduled in *.
    constructor; cbn; auto; try lia.
Qed.

Lemma round_invariant_gameLoop s :
  round_invariant s -> round_invariant (exec gameLoop s).
Proof.
  intros H. rewrite exec_gameLoop. cbv zeta.
  apply (round_invariant_frame s); auto; cbn [players emitted].
  - intros Hne. right. intros E. apply Hne. rewrite E. reflexivity.
  - apply entries_collisions, H.
  - apply Forall_app. split; [apply H|]. now repeat constructor.
Qed.

Lemma round_invariant_joinGame sid playerName e s :
  round_invariant s ->
  round_invariant (exec (joinGame sid playerName e) s).
Proof.
  intros H. rewrite exec_joinGame. cbv zeta.
  cbn [gameInProgress players set_players]. rewrite keys_nonempty_set.
  rewrite andb_true_r.
  assert (Forall well_formed_entry
            (Obj.set sid (new_player sid playerName e) (players s))) as Hwf.
  { apply Forall_set; [apply H|]. split; [reflexivity|].
    apply fallback_name_nonempty. }
  apply round_invariant_emit; [|reflexivity].
  destruct (gameInProgress s) eqn:Eg; cbn [negb].
  - apply (round_invariant_frame s); auto; try apply H.
  - apply round_invariant_startGame; [exact Hwf|apply H].
Qed.

Lemma round_invariant_move sid position s :
  round_invariant s -> round_invariant (exec (move sid position) s).
Proof.
  intros H. rewrite exec_move.
  destruct (Obj.get sid (players s)) as [p|] eqn:G; [|exact H].
  apply (round_invariant_frame s); auto; try apply H; cbn [players set_players].
  - intros _. right. intros E. rewrite E in G. discriminate.
  - apply Forall_set; [apply H|].
    pose proof (ri_entries _ H) as Hwf. rewrite Forall_forall in Hwf.
    exact (Hwf _ (get_In _ _ _ G)).
Qed.

Lemma round_invariant_disconnect sid s :
  round_invariant s -> round_invariant (exec (disconnect sid) s).
Proof.
  intros H. rewrite exec_disconnect. cbv zeta.
  destruct (Obj.delete sid (players s)) as [|kv ps] eqn:E.
  - cbn. constructor; cbn; try discriminate; try apply H; auto.
  - cbn [Obj.keys map List.length Nat.eqb].
    apply (round_invariant_frame s); auto; try apply H;
      cbn [players set_players].
    + intros _. right. intros Hnil. rewrite Hnil in E. discriminate.
    + rewrite <- E. apply Forall_delete, H.
Qed.

Lemma round_invariant_restart h t e s :
  round_invariant s ->
  timer_lookup h (timers s) = Some t ->
  repeating t = false ->
  round_invariant
    (exec (restart e) (set_timers (timer_remove h (timers s)) s)).
Proof.
  intros H Ht Hrep. rewrite exec_restart. cbv zeta.
  cbn [players set_players set_timers].
  destruct (filter _ (players s)) as [|kv kept] eqn:E;
    cbn [Obj.keys map List.length Nat.ltb Nat.leb].
  - assert (forall h' cb,
              timer_lookup h' (timers s) = Some (mkTimer cb true (rounds s)) ->
              timer_lookup h' (timer_remove h (timers s))
              = Some (mkTimer cb true (rounds s))) as Hkeep.
    { intros h' cb G. rewrite timer_lookup_remove_other; [exact G|].
      intros ->. rewrite Ht in G. injection G as ->. discriminate. }
    destruct H. unfold scheduled in *.
    constructor; cbn; auto.
    intros Hg. destruct (ri_live0 Hg)
      as ((h1 & E1 & G1) & (h2 & E2 & G2) & (h3 & E3 & G3)).
    unfold scheduled. cbn. repeat split; eexists; eauto.
  - apply round_invariant_startGame; cbn [players emitted set_players
                                          set_timers]; [|apply H].
    rewrite <- E. apply Forall_filter_keep, H.
Qed.

Lemma round_invariant_fire h e s :
  invariant s -> round_invariant s -> round_invariant (exec (fire h e) s).
Proof.
  intros Hinv H. rewrite exec_fire.
  destruct (timer_lookup h (timers s)) as [t|] eqn:Ht; [|exact H].
  pose proof (inv_timeout _ Hinv h t Ht) as Hrep.
  destruct (action t) eqn:Ea; cbn in Hrep; rewrite Hrep; cbn [run_callback].
  - now apply round_invariant_gameLoop.
  - now apply round_invariant_spawnTreasure.
  - now apply round_invariant_countdown.
  - now apply (round_invariant_restart h t).
Qed.

Lemma round_invariant_step ev e s :
  invariant s -> round_invariant s -> round_invariant (step ev e s).
Proof.
  intros Hinv H. destruct ev; unfold step; cbn [handle].
  - now apply round_invariant_joinGame.
  - now apply round_invariant_move.
  - now apply round_invariant_disconnect.
  - now apply round_invariant_fire.
Qed.

Lemma round_invariant_run trace s :
  invariant s -> round_invariant s -> round_invariant (run trace s).
Proof.
  revert s. induction trace as [|[ev e] trace IH]; intros s Hinv H; cbn; auto.
  apply IH; [now apply invariant_step|now apply round_invariant_step].
Qed.

Lemma round_invariant_reachable trace : round_invariant (run trace initial).
Proof.
  apply round_invariant_run;
    [apply invariant_initial|apply round_invariant_initial].
Qed.

(** X9. While a round is in progress the engine is alive: in every
    reachable state with [gameInProgress] set, the three handle
    variables hold intervals that are scheduled, running [gameLoop],
    [spawnTreasure] and the countdown, and that were created by the
    [startGame] of the current round. *)
Theorem round_timers_live trace :
  let s := run trace initial in
  gameInProgress s = true ->
  scheduled (gameLoopInterval s) cb_gameLoop s /\
  scheduled (treasureSpawnInterval s) cb_spawnTreasure s /\
  scheduled (countdownInterval s) cb_countdown s.
Proof. intros s. apply (ri_live _ (round_invariant_reachable trace)). Qed.

Lemma round_timers_live_witness :
  scheduled (gameLoopInterval (run second_round_running initial))
    cb_gameLoop (run second_round_running initial) /\
  scheduled (treasureSpawnInterval (run second_round_running initial))
    cb_spawnTreasure (run second_round_running initial) /\
  scheduled (countdownInterval (run second_round_running initial))
    cb_countdown (run second_round_running initial).
Proof.
  apply (round_timers_live second_round_running). vm_compute. reflexivity.
Defined.

(** X10. The remaining time never exceeds 60, and it is at least 1
    in every reachable state in which a round is in progress.  Each
    firing of a countdown interval lowers it by exactly 1, whether
    or not that ends the round. *)
Theorem remaining_time_bounds trace :
  let s := run trace initial in
  gameTimer s <= 60 /\
  (gameInProgress s = true -> 1 <= gameTimer s) /\
  (forall h t e,
     timer_lookup h (timers s) = Some t ->
     action t = cb_countdown ->
     gameTimer (step (on_timer h) e s) = gameTimer s - 1).
Proof.
  intros s. pose proof (round_invariant_reachable trace) as H. fold s in H.
  split; [apply H|]. split; [apply H|].
  intros h t e Ht Hcb.
  rewrite (fire_interval h t e s (invariant_reachable trace) Ht)
    by congruence.
  rewrite Hcb. cbn [run_callback]. rewrite exec_countdown.
  case_if; [rewrite exec_endGame|]; reflexivity.
Qed.

Lemma remaining_time_bounds_witness :
  1 <= gameTimer (run (ann_plays 59) initial) /\
  gameTimer (step (on_timer 2) env_apart (run (ann_plays 59) initial))
  = gameTimer (run (ann_plays 59) initial) - 1.
Proof.
  destruct (remaining_time_bounds (ann_plays 59)) as (_ & Hmin & Hstep).
  split.
  - apply Hmin. vm_compute. reflexivity.
  - apply (Hstep 2%nat (mkTimer cb_countdown true 1) env_apart).
    + vm_compute. reflexivity.
    + reflexivity.
Defined.

(** X11. Registered players are never left waiting for nothing: in
    every reachable state with at least one player, either a round is
    in progress or a restart timeout is scheduled. *)
Theorem players_are_served trace :
  let s := run trace initial in
  players s <> [] -> gameInProgress s = true \/ restart_pending s.
Proof. intros s. apply (ri_served _ (round_invariant_reachable trace)). Qed.

Lemma players_are_served_witness :
  gameInProgress (run (ann_plays 60) initial) = true \/
  restart_pending (run (ann_plays 60) initial).
Proof.
  apply (players_are_served (ann_plays 60)). vm_compute. discriminate.
Defined.

(** X12. In every reachable state each record of the registry is
    filed under its own id and has a non-empty name: an empty
    requested name is always replaced by the generated one. *)
Theorem registry_entries_well_formed trace :
  Forall well_formed_entry (players (run trace initial)).
Proof. apply (ri_entries _ (round_invariant_reachable trace)). Qed.

(** X13. Every message the server ever sends is addressed as its kind
    requires: [gameState] and [gameOver] go to every session, and a
    [gameJoined] goes to one socket and carries that socket's id. *)
Theorem messages_well_addressed trace :
  Forall well_addressed (emitted (run trace initial)).
Proof. apply (ri_log _ (round_invariant_reachable trace)). Qed.

(** ** Further properties: spawning *)

Lemma new_treasure_in_arena e :
  unit_interval (random_tx e) -> unit_interval (random_tz e) ->
  in_arena (new_treasure e).
Proof.
  assert (GAME_AREA_WIDTH / 2 == 25)%Q as Ew by reflexivity.
  assert (GAME_AREA_HEIGHT / 2 == 25)%Q as Eh by reflexivity.
  unfold unit_interval, in_arena. rewrite Ew, Eh.
  unfold new_treasure, GAME_AREA_WIDTH, GAME_AREA_HEIGHT, inject_Z.
  cbn [Treasure.x Treasure.y Treasure.z]. intros [] [].
  repeat split; try reflexivity; lra.
Qed.

Lemma arena_step ev e s :
  draws_in_range e ->
  Forall in_arena (treasures s) ->
  Forall in_arena (treasures (step ev e s)).
Proof.
  intros (_ & _ & _ & Hx & Hz) H.
  pose proof (new_treasure_in_arena e Hx Hz) as Hnew.
  assert (Hspawn : forall s0,
    Forall in_arena (treasures s0) ->
    Forall in_arena (treasures (exec (spawnTreasure e) s0))).
  { intros s0 H0. rewrite exec_spawnTreasure. case_if; [exact H0|].
    cbn. apply Forall_app. split; [exact H0|]. now constructor. }
  assert (Hstart : forall s0,
    Forall in_arena (treasures (exec (startGame e) s0))).
  { intros s0. rewrite exec_startGame. cbn. now constructor. }
  destruct ev; unfold step; cbn [handle].
  - rewrite exec_joinGame. cbv zeta. cbn [treasures set_emitted].
    case_if; [apply Hstart|exact H].
  - rewrite exec_move. destruct (Obj.get sid (players s)); exact H.
  - rewrite exec_disconnect. cbv zeta. case_if; [constructor|exact H].
  - rewrite exec_fire. destruct (timer_lookup h (timers s)) as [t|]; [|exact H].
    assert (Forall in_arena
              (treasures
                 (if repeating t then s
                  else set_timers (timer_remove h (timers s)) s))) as H1
      by (destruct (repeating t); exact H).
    destruct (action t); cbn [run_callback]; auto.
    + rewrite exec_gameLoop. cbn [treasures].
      rewrite Forall_forall in *. intros x Hin.
      apply H1. eapply collisions_In, Hin.
    + rewrite exec_countdown. case_if; [rewrite exec_endGame|]; exact H1.
    + rewrite exec_restart. cbv zeta. case_if; [apply Hstart|exact H1].
Qed.

(** X14. As long as every [Math.random()] returns a value in [0, 1),
    every live treasure lies inside the game area, with x and z at
    least -25 and below 25, at the fixed height 0.5. *)
Theorem treasures_stay_in_arena trace :
  Forall (fun step_env => draws_in_range (snd step_env)) trace ->
  Forall in_arena (treasures (run trace initial)).
Proof.
  assert (forall s,
    Forall (fun step_env => draws_in_range (snd step_env)) trace ->
    Forall in_arena (treasures s) ->
    Forall in_arena (treasures (run trace s))) as H.
  { induction trace as [|[ev e] trace IH]; intros s Hd Hs; [exact Hs|].
    inversion Hd; subst. cbn. apply IH; [assumption|].
    now apply arena_step. }
  intros Hd. apply H; [exact Hd|constructor].
Qed.

Lemma env_apart_in_range : draws_in_range env_apart.
Proof. unfold draws_in_range, unit_interval. cbn. repeat split; lra. Qed.

Lemma treasures_stay_in_arena_witness :
  Forall in_arena (treasures (run (ann_plays 3) initial)).
Proof.
  apply (treasures_stay_in_arena (ann_plays 3)).
  repeat constructor; apply env_apart_in_range.
Defined.

(** X15. With draws in [0, 1), a [joinGame] stores for the socket a
    record with the socket's id, score 0, height 0.5 and x and z at
    least -5 and below 5; its name is the requested one, or, when that
    is empty, [Player] followed by a number from 0 to 999. *)
Theorem join_registers_player sid playerName e s :
  draws_in_range e ->
  exists p,
    Obj.get sid (players (step (on_joinGame sid playerName) e s)) = Some p /\
    Player.id p = sid /\
    Player.score p = 0 /\
    Player.y p = 1 # 2 /\
    (- (5) <= Player.x p)%Q /\ (Player.x p < 5)%Q /\
    (- (5) <= Player.z p)%Q /\ (Player.z p < 5)%Q /\
    (playerName <> EmptyString -> Player.name p = playerName) /\
    (playerName = EmptyString ->
     exists n, 0 <= n <= 999 /\
       Player.name p =
       String.append "Player " (NilZero.string_of_int (Z.to_int n))).
Proof.
  intros (Hn & Hx & Hz & _ & _).
  exists (new_player sid playerName e). split.
  - unfold step. cbn [handle]. rewrite exec_joinGame. cbv zeta.
    cbn [players set_emitted]. case_if.
    + rewrite startGame_players, get_update_all. cbn [players set_players].
      rewrite get_set_same. reflexivity.
    + cbn [players set_players]. apply get_set_same.
  - unfold unit_interval in *. cbn. destruct Hx, Hz, Hn.
    repeat split; try lra.
    + intros N. unfold fallback_name.
      destruct (String.eqb_spec playerName EmptyString); [contradiction|].
      reflexivity.
    + intros ->. exists (Qfloor (random_name e * 1000)). split.
      * split.
        -- apply (Qfloor_resp_le 0). lra.
        -- assert (Qfloor (random_name e * 1000) < 1000); [|lia].
           rewrite Zlt_Qlt. eapply Qle_lt_trans; [apply Qfloor_le|].
           unfold inject_Z. lra.
      * reflexivity.
Qed.

Lemma join_registers_player_witness :
  exists p,
    Obj.get "A" (players (step (on_joinGame "A" "Ann") env_apart initial))
    = Some p /\
    Player.id p = "A"%string /\
    Player.score p = 0.
Proof.
  destruct (join_registers_player "A" "Ann" env_apart initial
              env_apart_in_range) as (p & H1 & H2 & H3 & _).
  exists p. auto.
Defined.

(** ** Further properties: the leaderboard *)

Lemma filter_none {A : Type} (f : A -> bool) (l : list A) :
  Forall (fun x => f x = false) l -> filter f l = [].
Proof.
  induction 1 as [|x l Hx _ IH]; cbn; [reflexivity|]. now rewrite Hx.
Qed.

(** The stable sort puts first the first player of highest score. *)
Lemma sort_head_first_max vs before w after :
  vs = before ++ w :: after ->
  Forall (fun p => Player.score p < Player.score w) before ->
  Forall (fun p => Player.score p <= Player.score w) after ->
  hd_error (sort compare_score vs) = Some w.
Proof.
  intros E Hb Ha.
  pose proof (sort_perm compare_score vs) as Hperm.
  pose proof (sort_sorted vs) as Hsorted.
  pose proof (sort_stable (Player.score w) vs) as Hstable.
  assert (In w vs) as Hw by (rewrite E; apply in_or_app; right; now left).
  destruct (sort compare_score vs) as [|h l] eqn:El.
  { apply Permutation_sym, Permutation_nil in Hperm. subst vs.
    destruct before; discriminate. }
  cbn. f_equal.
  assert (Player.score h = Player.score w) as Eh.
  { apply Z.le_antisymm.
    - assert (In h vs) as Hh
        by (eapply Permutation_in; [apply Permutation_sym, Hperm|now left]).
      rewrite E in Hh. apply in_app_or in Hh as [Hh|[<-|Hh]].
      + rewrite Forall_forall in Hb. specialize (Hb _ Hh). lia.
      + lia.
      + rewrite Forall_forall in Ha. exact (Ha _ Hh).
    - assert (In w (h :: l)) as Hin by (eapply Permutation_in; eauto).
      destruct Hin as [->|Hin]; [lia|].
      inversion Hsorted as [|? ? _ Hf]; subst.
      rewrite Forall_forall in Hf. exact (Hf _ Hin). }
  rewrite E in Hstable. rewrite filter_app in Hstable.
  rewrite (filter_none _ before) in Hstable.
  - assert (has_score (Player.score w) h = true) as Hh
      by (unfold has_score; rewrite Eh; apply Z.eqb_refl).
    assert (has_score (Player.score w) w = true) as Hw'
      by (unfold has_score; apply Z.eqb_refl).
    cbn [filter app] in Hstable. rewrite Hh, Hw' in Hstable.
    now injection Hstable.
  - eapply Forall_impl; [|exact Hb]. intros p Hp. unfold has_score.
    cbv beta in Hp. apply Z.eqb_neq. lia.
Qed.

(** X16. In every reachable state the first row of the leaderboard is
    the player that [endGame] would announce as the winner, and both
    are absent exactly when nobody is registered: the stable sort and
    the winner loop break ties the same way. *)
Theorem leaderboard_leader_is_winner trace :
  let s := run trace initial in
  hd_error (leaderboard_of (players s)) =
  option_map entry_of (fst (determineWinner (players s))).
Proof.
  intros s. pose proof (inv_scores _ (invariant_reachable trace)) as Hnn.
  fold s in Hnn.
  destruct (determineWinner_spec (players s) Hnn)
    as [[E ->]|(b & w & a & E & Hb & Ha & ->)].
  - rewrite E. reflexivity.
  - unfold leaderboard_of, slice0.
    pose proof (sort_head_first_max _ _ _ _ E Hb Ha) as Hh.
    destruct (sort compare_score (Obj.values (players s))) as [|h l];
      [discriminate|].
    cbn in *. now injection Hh as ->.
Qed.

Lemma StronglySorted_app_cross {A : Type} (R : A -> A -> Prop) l1 l2 :
  StronglySorted R (l1 ++ l2) ->
  forall a b, In a l1 -> In b l2 -> R a b.
Proof.
  induction l1 as [|x l1 IH]; cbn; intros H a b Ha Hb; [contradiction|].
  inversion H as [|? ? Hs Hf]; subst. destruct Ha as [->|Ha].
  - rewrite Forall_forall in Hf. apply Hf, in_or_app. now right.
  - eapply IH; eauto.
Qed.

(** X17. The leaderboard shows the best players: the registry splits
    into the players shown and the players left out, the shown ones
    are five or all of them, whichever is fewer, and no player left
    out has a higher score than a player shown. *)
Theorem leaderboard_shows_the_best (ps : list (string * Player.t)) :
  exists shown hidden,
    Permutation (Obj.values ps) (shown ++ hidden) /\
    leaderboard_of ps = map entry_of shown /\
    List.length shown = Nat.min 5 (List.length ps) /\
    (forall a b,
       In a shown -> In b hidden -> Player.score b <= Player.score a).
Proof.
  exists (firstn 5 (sort compare_score (Obj.values ps))).
  exists (skipn 5 (sort compare_score (Obj.values ps))).
  split; [rewrite firstn_skipn; apply sort_perm|].
  split; [reflexivity|]. split.
  - rewrite length_firstn.
    rewrite <- (Permutation_length (sort_perm compare_score (Obj.values ps))).
    unfold Obj.values. rewrite length_map. reflexivity.
  - intros a b Ha Hb.
    apply (StronglySorted_app_cross descending
             (firstn 5 (sort compare_score (Obj.values ps)))
             (skipn 5 (sort compare_score (Obj.values ps)))); auto.
    rewrite firstn_skipn. apply sort_sorted.
Qed.

(** ** Further properties: timers across rounds *)

(** X18. [startGame] cancels nothing.  A timer that is scheduled when
    [startGame] is called is still scheduled after the call and no
    handle variable refers to it any more, so neither the
    [clearInterval] calls of a later [endGame] nor those of a later
    [disconnect] remove it. *)
Theorem startGame_cancels_nothing trace e h t :
  let s := run trace initial in
  timer_lookup h (timers s) = Some t ->
  let s' := exec (startGame e) s in
  timer_lookup h (timers s') = Some t /\
  ~ In (Some h) (handles s') /\
  timer_lookup h (timers (exec endGame s')) = Some t /\
  (forall sid, timer_lookup h (timers (exec (disconnect sid) s')) = Some t).
Proof.
  intros s Ht.
  pose proof (inv_timers _ (invariant_reachable trace) h t Ht) as Hlt.
  fold s in Hlt. cbv zeta. rewrite exec_startGame.
  match goal with |- context [timers ?r] => set (s' := r) end.
  assert (timer_lookup h (timers s') = Some t) as H1.
  { unfold s'. cbn.
    repeat match goal with
      | |- context [Nat.eqb h ?x] => destruct (Nat.eqb_spec h x); [lia|]
      end.
    exact Ht. }
  assert (~ In (Some h) (handles s')) as H2.
  { unfold s'. cbn. intros [E|[E|[E|[]]]]; injection E as E; lia. }
  assert (nextHandle s' = (3 + nextHandle s)%nat) as Hn by reflexivity.
  split; [exact H1|]. split; [exact H2|]. split.
  - rewrite exec_endGame. cbn [timers timer_lookup].
    destruct (Nat.eqb_spec h (nextHandle s')); [lia|].
    rewrite clear_handles_other; assumption.
  - intros sid. rewrite exec_disconnect. cbv zeta.
    case_if; cbn [timers set_players]; [|exact H1].
    rewrite clear_handles_other; assumption.
Qed.

Lemma startGame_cancels_nothing_witness :
  timer_lookup 0
    (timers (exec endGame
               (exec (startGame env_apart) (run (ann_plays 0) initial))))
  = Some (mkTimer cb_gameLoop true 1).
Proof.
  destruct (startGame_cancels_nothing (ann_plays 0) env_apart 0%nat
              (mkTimer cb_gameLoop true 1)) as (_ & _ & H & _).
  - vm_compute. reflexivity.
  - exact H.
Defined.

(** ** Further properties: repeated ticks *)

Lemma collides_with_score v p t :
  collides (Player.with_score v p) t = collides p t.
Proof. reflexivity. Qed.

Lemma in_reach_collisions ps ts t :
  in_reach (fst (collisions ps ts)) t = in_reach ps t.
Proof.
  pose proof (collisions_players ps ts) as H. unfold in_reach.
  induction H as [|kv kv' ps ps' (_ & Hp & _) _ IH]; [reflexivity|].
  cbn. rewrite IH, Hp, collides_with_score. reflexivity.
Qed.

Lemma in_reach_gameLoop s t :
  in_reach (players (exec gameLoop s)) t = in_reach (players s) t.
Proof. rewrite exec_gameLoop. apply in_reach_collisions. Qed.

Lemma ticks_idle n s :
  (forall t, In t (treasures s) -> in_reach (players s) t = false) ->
  players (ticks n s) = players s /\ treasures (ticks n s) = treasures s.
Proof.
  revert s. induction n as [|n IH]; intros s H; [split; reflexivity|].
  cbn [ticks].
  pose proof (collisions_none _ _ H) as Hc.
  assert (players (exec gameLoop s) = players s /\
          treasures (exec gameLoop s) = treasures s) as [Ep Et].
  { rewrite exec_gameLoop. cbn [players treasures]. rewrite Hc.
    split; reflexivity. }
  destruct (IH (exec gameLoop s)) as [Ep' Et'].
  { rewrite Ep, Et. exact H. }
  rewrite Ep', Et', Ep, Et. split; reflexivity.
Qed.

Lemma ticks_clear n s :
  (List.length (treasures s) <= n)%nat ->
  forall t, In t (treasures (ticks n s)) -> in_reach (players s) t = false.
Proof.
  revert s. induction n as [|n IH]; intros s Hlen t Hin.
  - cbn in Hin. destruct (treasures s); [contradiction|cbn in Hlen; lia].
  - cbn [ticks] in Hin.
    destruct (existsb (in_reach (players s)) (treasures s)) eqn:Ex.
    + apply existsb_exists in Ex as (t0 & Hin0 & Hr0).
      pose proof (collisions_progress _ _ _ Hin0 Hr0) as Hlt.
      rewrite <- (in_reach_gameLoop s). apply IH; [|exact Hin].
      rewrite exec_gameLoop. cbn [treasures]. lia.
    + assert (forall t', In t' (treasures s) ->
                         in_reach (players s) t' = false) as Hnone.
      { intros t' Hin'. destruct (in_reach (players s) t') eqn:R;
          [|reflexivity].
        assert (existsb (in_reach (players s)) (treasures s) = true)
          by (apply existsb_exists; eauto).
        congruence. }
      apply Hnone.
      destruct (ticks_idle n (exec gameLoop s)) as [_ Et].
      { intros t' Hin'.
        rewrite in_reach_gameLoop.
        apply Hnone. rewrite exec_gameLoop in Hin'. cbn [treasures] in Hin'.
        eapply collisions_In, Hin'. }
      rewrite Et in Hin. rewrite exec_gameLoop in Hin. cbn [treasures] in Hin.
      eapply collisions_In, Hin.
Qed.

(** X19. A treasure that a tick skips is only delayed.  After as many
    consecutive ticks as there are live treasures, with the players
    standing still, no treasure is left within the collision radius of
    any player. *)
Theorem ticks_collect_all_within_reach s t :
  In t (treasures (ticks (List.length (treasures s)) s)) ->
  in_reach (players s) t = false.
Proof. apply ticks_clear. lia. Qed.

Lemma ticks_collect_all_within_reach_witness :
  in_reach (players (run (ann_plays 0) initial)) (new_treasure env_apart)
  = false.
Proof.
  apply (ticks_collect_all_within_reach (run (ann_plays 0) initial)).
  vm_compute. left. reflexivity.
Defined.
